(** * auto_sub_pro: timecodes, active cue, word wrap, box geometry, burn job

    A shallow embedding of [src/utils/srtParser.ts] and
    [src/utils/videoProcessor.ts].

    JavaScript numbers are modelled by [number]: NaN, the two infinities and
    the finite values as exact rationals (every double is a dyadic rational).
    Rounding error of double arithmetic is abstracted and [-0] is identified
    with [0].  Strings are Rocq strings, one [ascii] per code unit. *)

From Stdlib Require Import ZArith NArith QArith Qround Qabs.
From Stdlib Require Import List String Ascii Bool.
From Stdlib Require Import Sorted Permutation.
From Stdlib Require Import Lia Lqa.
Import ListNotations.

Local Open Scope Z_scope.

(** ** JavaScript numbers *)

Module JS.

Local Open Scope Q_scope.

(** Values of [Math.floor], [Math.round] and [parseInt]: integers, or a
    non-finite value passed through. *)
Inductive integral : Type :=
| INaN
| IInf (neg : bool)
| IInt (z : Z).

Inductive number : Type :=
| NaN
| Inf (neg : bool)
| Fin (q : Q).

Definition of_integral (i : integral) : number :=
  match i with
  | INaN => NaN
  | IInf b => Inf b
  | IInt z => Fin (inject_Z z)
  end.

Definition Qltb (a b : Q) : bool := negb (Qle_bool b a).
Definition Qnegb (a : Q) : bool := Qltb a 0.
Definition Qzerob (a : Q) : bool := Qeq_bool a 0.

(** Truncation toward zero, as in the remainder operator. *)
Definition Qtrunc (q : Q) : Z :=
  if Qnegb q then Qceiling q else Qfloor q.

(** [a + b] *)
Definition add (a b : number) : number :=
  match a, b with
  | NaN, _ | _, NaN => NaN
  | Inf s, Inf t => if Bool.eqb s t then Inf s else NaN
  | Inf s, Fin _ | Fin _, Inf s => Inf s
  | Fin x, Fin y => Fin (Qred (x + y))
  end.

(** [a * b] *)
Definition mul (a b : number) : number :=
  match a, b with
  | NaN, _ | _, NaN => NaN
  | Inf s, Inf t => Inf (xorb s t)
  | Inf s, Fin y | Fin y, Inf s =>
      if Qzerob y then NaN else Inf (xorb s (Qnegb y))
  | Fin x, Fin y => Fin (Qred (x * y))
  end.

(** [a / b] *)
Definition div (a b : number) : number :=
  match a, b with
  | NaN, _ | _, NaN => NaN
  | Inf _, Inf _ => NaN
  | Inf s, Fin y => Inf (xorb s (Qnegb y))
  | Fin _, Inf _ => Fin 0
  | Fin x, Fin y =>
      if Qzerob y then (if Qzerob x then NaN else Inf (Qnegb x))
      else Fin (Qred (x / y))
  end.

(** [a % b]: the result has the sign of the dividend. *)
Definition rem (a b : number) : number :=
  match a, b with
  | NaN, _ | _, NaN => NaN
  | Inf _, _ => NaN
  | Fin x, Inf _ => Fin x
  | Fin x, Fin y =>
      if Qzerob y then NaN
      else Fin (Qred (x - y * inject_Z (Qtrunc (x / y))))
  end.

(** [a <= b] and [a >= b]; every comparison with NaN is false. *)
Definition le (a b : number) : bool :=
  match a, b with
  | NaN, _ | _, NaN => false
  | Inf true, _ => true
  | _, Inf false => true
  | Inf false, _ => false
  | _, Inf true => false
  | Fin x, Fin y => Qle_bool x y
  end.

Definition ge (a b : number) : bool := le b a.

Definition Math_floor (a : number) : integral :=
  match a with
  | NaN => INaN
  | Inf s => IInf s
  | Fin x => IInt (Qfloor x)
  end.

(** [Math.round] rounds to the nearest integer, halves toward +infinity. *)
Definition Math_round (a : number) : integral :=
  match a with
  | NaN => INaN
  | Inf s => IInf s
  | Fin x => IInt (Qfloor (x + (1 # 2)))
  end.

Definition Math_min (a b : number) : number :=
  match a, b with
  | NaN, _ | _, NaN => NaN
  | _, _ => if le a b then a else b
  end.

End JS.

Import JS.

Coercion of_integral : integral >-> number.

Definition num (z : Z) : number := Fin (inject_Z z).

(** ** Active cue and progress (burnSubtitles, the body of [draw]) *)

Record SubtitleCue : Type := {
  id : string;
  startTime : number;
  endTime : number;
  text : string
}.

(** [Array.prototype.find] *)
Fixpoint Array_find {A : Type} (p : A -> bool) (xs : list A) : option A :=
  match xs with
  | [] => None
  | x :: rest => if p x then Some x else Array_find p rest
  end.

(** [cues.find(c => currentTime >= c.startTime && currentTime <= c.endTime)] *)
Definition cueContains (currentTime : number) (c : SubtitleCue) : bool :=
  ge currentTime (startTime c) && le currentTime (endTime c).

Definition activeCue (cues : list SubtitleCue) (currentTime : number)
  : option SubtitleCue :=
  Array_find (cueContains currentTime) cues.

(** [Math.min(100, Math.round((currentTime / video.duration) * 100))] *)
Definition progress (currentTime duration : number) : number :=
  Math_min (num 100) (Math_round (mul (div currentTime duration) (num 100))).

(** The spec's [clamp(v, 0, 100)] on integers. *)
Definition clamp (v lo hi : Z) : Z := Z.max lo (Z.min v hi).

(** [Math.max], and the spec's [clamp(v, lo, hi)] on numbers:
    [max(lo, min(v, hi))]. *)
Definition Math_max (a b : number) : number :=
  match a, b with
  | NaN, _ | _, NaN => NaN
  | _, _ => if le a b then b else a
  end.

Definition clampNumber (v lo hi : number) : number :=
  Math_max lo (Math_min v hi).

(** The playback times and durations the frame loop can read from its video
    element: a finite time that is not negative, and a duration that is
    positive, possibly infinite, or zero once the time is past zero.  (At
    time 0 of a source of duration 0 the element has ended and the loop
    returns before it computes the progress.) *)
Definition playback (currentTime duration : number) : Prop :=
  match currentTime, duration with
  | Fin t, Fin d => (0 <= t)%Q /\ (0 <= d)%Q /\ ~ (t == 0 /\ d == 0)%Q
  | Fin t, Inf false => (0 <= t)%Q
  | _, _ => False
  end.

(** ** Strings: the built-ins used by the timecode helpers and the wrap *)

Module Str.

Local Open Scope string_scope.

(** [s.split(sep)] for a one-character separator; never the empty array. *)
Fixpoint split (sep : ascii) (s : string) : list string :=
  match s with
  | EmptyString => [EmptyString]
  | String c rest =>
      if Ascii.eqb c sep then EmptyString :: split sep rest
      else match split sep rest with
           | [] => [String c EmptyString]
           | w :: ws => String c w :: ws
           end
  end.

(** [s.replace(c, d)] with string arguments: the first occurrence only. *)
Fixpoint replace (c d : ascii) (s : string) : string :=
  match s with
  | EmptyString => EmptyString
  | String a rest =>
      if Ascii.eqb a c then String d rest else String a (replace c d rest)
  end.

Fixpoint repeat (fill : ascii) (n : nat) : string :=
  match n with
  | O => EmptyString
  | S k => String fill (repeat fill k)
  end.

(** [s.padStart(size, fill)] for a one-character filler. *)
Definition padStart (s : string) (size : nat) (fill : ascii) : string :=
  repeat fill (size - String.length s) ++ s.

Definition digit (n : N) : ascii := ascii_of_N (48 + n).

(** Decimal digits of [n], most significant first, in front of [acc]. *)
Fixpoint digits (fuel : nat) (n : N) (acc : string) : string :=
  match fuel with
  | O => acc
  | S f =>
      let acc' := String (digit (n mod 10)) acc in
      if (n / 10 =? 0)%N then acc' else digits f (n / 10) acc'
  end.

Definition N_toString (n : N) : string :=
  digits (S (N.to_nat (N.log2 n))) n EmptyString.

(** [num.toString()] of an integral value.  (Integers from 10^21 on print in
    exponent notation in JavaScript; the model prints their digits.) *)
Definition toString (i : integral) : string :=
  match i with
  | INaN => "NaN"
  | IInf false => "Infinity"
  | IInf true => "-Infinity"
  | IInt z =>
      if (z <? 0)%Z then String "-" (N_toString (Z.to_N (- z)))
      else N_toString (Z.to_N z)
  end.

(** White space skipped by [parseInt], among the code units below 256. *)
Definition isWhite (c : ascii) : bool :=
  let n := N_of_ascii c in
  ((9 <=? n) && (n <=? 13) || (n =? 32) || (n =? 160))%N.

Fixpoint skipWhite (s : string) : string :=
  match s with
  | EmptyString => EmptyString
  | String c rest => if isWhite c then skipWhite rest else s
  end.

Definition digitVal (c : ascii) : option N :=
  let n := N_of_ascii c in
  if ((48 <=? n) && (n <=? 57))%N then Some (n - 48)%N else None.

(** Value of the longest prefix of decimal digits; [None] if it is empty. *)
Fixpoint parseDigits (s : string) (acc : option N) : option N :=
  match s with
  | EmptyString => acc
  | String c rest =>
      match digitVal c with
      | Some d =>
          parseDigits rest
            (Some (10 * match acc with Some a => a | None => 0 end + d)%N)
      | None => acc
      end
  end.

(** The least integer that is too large for a double and rounds to
    [Infinity]: [2^1024 - 2^970]. *)
Definition overflow : N := (2 ^ 1024 - 2 ^ 970)%N.

(** [parseInt(s, 10)].  The digits are read exactly, and a value too large
    for a double becomes an infinity.  (Below that, the rounding of the
    integers above 2^53 is abstracted, as for all arithmetic here.) *)
Definition parseInt (s : string) : integral :=
  let s1 := skipWhite s in
  let '(neg, s2) :=
    match s1 with
    | String "-" r => (true, r)
    | String "+" r => (false, r)
    | _ => (false, s1)
    end in
  match parseDigits s2 None with
  | None => INaN
  | Some n =>
      if (n <? overflow)%N
      then IInt (if neg then - Z.of_N n else Z.of_N n)
      else IInf neg
  end.

(** [parseInt(a[i], 10)]: an absent element is [undefined], which parses to
    NaN. *)
Definition parseIntAt (a : list string) (i : nat) : integral :=
  match nth_error a i with
  | Some s => parseInt s
  | None => INaN
  end.

End Str.

(** ** src/utils/srtParser.ts *)

Section SrtParser.

Local Open Scope string_scope.

(** [secondsParts[1] || '0']: absent and empty are both falsy. *)
Definition fractionField (secondsParts : list string) : string :=
  match nth_error secondsParts 1 with
  | Some (String c r) => String c r
  | _ => "0"
  end.

Definition parseSRTTime (timeString : string) : number :=
  match timeString with
  | EmptyString => num 0
  | _ =>
      let normalizedTime := Str.replace "," "." timeString in
      let parts := Str.split ":" normalizedTime in
      let '(hours, minutes, seconds, milliseconds) :=
        match parts with
        | [_; _; p2] =>
            let secondsParts := Str.split "." p2 in
            (Str.parseIntAt parts 0, Str.parseIntAt parts 1,
             Str.parseIntAt secondsParts 0,
             Str.parseInt (fractionField secondsParts))
        | [_; p1] =>
            let secondsParts := Str.split "." p1 in
            (IInt 0, Str.parseIntAt parts 0,
             Str.parseIntAt secondsParts 0,
             Str.parseInt (fractionField secondsParts))
        | _ => (IInt 0, IInt 0, IInt 0, IInt 0)
        end in
      add (add (add (mul hours (num 3600)) (mul minutes (num 60))) seconds)
          (div milliseconds (num 1000))
  end.

Definition pad (n : integral) (size : nat) : string :=
  Str.padStart (Str.toString n) size "0".

Definition formatSRTTime (totalSeconds : number) : string :=
  let hours := Math_floor (div totalSeconds (num 3600)) in
  let minutes := Math_floor (div (rem totalSeconds (num 3600)) (num 60)) in
  let seconds := Math_floor (rem totalSeconds (num 60)) in
  let milliseconds :=
    Math_round (mul (rem totalSeconds (num 1)) (num 1000)) in
  pad hours 2 ++ ":" ++ pad minutes 2 ++ ":" ++ pad seconds 2
    ++ "," ++ pad milliseconds 3.

End SrtParser.

(** The line break and the space the wrap splits on. *)
Abbreviation LF := "010"%char.
Abbreviation SP := " "%char.

(** ** src/utils/videoProcessor.ts: word wrap and background box

    Canvas dimensions, font sizes and text metrics are finite, so this part
    computes on rationals.  [measureText line] stands for
    [ctx.measureText(line).width] under the font set by the caller. *)

Record SubtitleStyle : Type := {
  fontSize : Q;
  fontFamily : string;
  color : string;
  backgroundColor : string;
  textShadow : string;
  position : Q
}.

(** The arguments of [ctx.fillRect(boxX, boxTop, boxWidth, boxHeight)]. *)
Record Box : Type := {
  boxX : Q;
  boxTop : Q;
  boxWidth : Q;
  boxHeight : Q
}.

Section Layout.

Variable measureText : string -> Q.

Local Open Scope string_scope.

(** The inner loop of [wrapText], from [i] on: [words] are the words not yet
    placed. *)
Fixpoint wrapWords (maxWidth : Q) (currentLine : string) (words : list string)
  : list string :=
  match words with
  | [] => [currentLine]
  | word :: rest =>
      let width := measureText (currentLine ++ " " ++ word) in
      if Qltb width maxWidth
      then wrapWords maxWidth (currentLine ++ " " ++ word) rest
      else currentLine :: wrapWords maxWidth word rest
  end.

(** One turn of the outer loop: the lines pushed for [paragraph]. *)
Definition wrapParagraph (maxWidth : Q) (paragraph : string) : list string :=
  let words := Str.split " " paragraph in
  wrapWords maxWidth (hd EmptyString words) (tl words).

Definition wrapText (text : string) (maxWidth : Q) : list string :=
  let paragraphs := Str.split LF text in
  flat_map (wrapParagraph maxWidth) paragraphs.

(** The widest-line loop of [drawSubtitleOnCanvas]: [maxLineWidth] starts at
    [0] and takes [m.width] whenever [m.width > maxLineWidth]. *)
Definition maxLineWidth (lines : list string) : Q :=
  fold_left
    (fun acc line => let m := measureText line in if Qltb acc m then m else acc)
    lines 0%Q.

Local Open Scope Q_scope.

(** The background box of [drawSubtitleOnCanvas] for already wrapped [lines],
    anchored at [(x, y)]; [fontSize] is the scaled font size. *)
Definition boxOf (lines : list string) (x y lineHeight fontSize : Q) : Box :=
  let paddingX := fontSize * (6 # 10) in
  let paddingY := fontSize * (3 # 10) in
  let boxWidth := maxLineWidth lines + paddingX * 2 in
  let boxHeight := inject_Z (Z.of_nat (List.length lines)) * lineHeight
                   + paddingY * 2 in
  let boxX := x - boxWidth / 2 in
  let boxBottom := y + fontSize * (2 # 10) in
  let boxTop := boxBottom - boxHeight in
  {| boxX := boxX; boxTop := boxTop;
     boxWidth := boxWidth; boxHeight := boxHeight |}.

(** [drawSubtitleOnCanvas], as far as the background is concerned: the
    rectangle filled, if any. *)
Definition drawSubtitleOnCanvas
  (text : string) (style : SubtitleStyle) (width height : Q) : option Box :=
  let scale := height / 600 in
  let fontSize := fontSize style * scale in
  let x := width / 2 in
  let y := height * (1 - position style / 100) in
  let maxWidth := width * (8 # 10) in
  let lineHeight := fontSize * (125 # 100) in
  let lines := wrapText text maxWidth in
  if String.eqb (backgroundColor style) "transparent" then None
  else Some (boxOf lines x y lineHeight fontSize).

End Layout.

(** ** burnSubtitles as an event-driven job

    The promise executor installs the handlers; afterwards the browser
    delivers events one at a time.  A promise settles at most once: later
    calls of [resolve] and [reject] have no effect.  The frame loop [draw]
    touches neither the recorder nor the promise and is left out of the job
    state; the value it reports is [progress] above. *)

Module Burn.

Local Open Scope string_scope.

Inductive outcome : Type :=
| Resolved (mimeType : string) (chunks : nat)
| Rejected (message : string).

Inductive recorderState : Type := inactive | recording.

Record MediaRecorder : Type := {
  mimeType : string;
  state : recorderState;
  chunks : nat
}.

Record job : Type := {
  handlers : bool;                  (* onloadedmetadata/onended/onerror set *)
  recorder : option MediaRecorder;  (* [let recorder] *)
  sessions : nat;                   (* calls of [new MediaRecorder] *)
  starts : nat;                     (* calls of [recorder.start()] *)
  timers : nat;                     (* pending [setTimeout] callbacks *)
  stopping : bool;                  (* a stop event is queued *)
  rejects : nat;                    (* calls of [reject] *)
  surfaced : list outcome           (* what the caller's [await] receives *)
}.

Inductive event : Type :=
| loadedmetadata (vp9 mp4 : bool)   (* with what [isTypeSupported] answers *)
| error
| ended
| timeout
| dataavailable (size : nat)
| stop
| playRejected (reason : string).

Definition settle (o : outcome) (j : job) : job :=
  {| handlers := handlers j; recorder := recorder j; sessions := sessions j;
     starts := starts j; timers := timers j; stopping := stopping j;
     rejects := rejects j + match o with Rejected _ => 1 | _ => 0 end;
     surfaced := match surfaced j with [] => [o] | l => l end |}.

Definition reject (message : string) (j : job) : job :=
  settle (Rejected message) j.

Definition resolve (mime : string) (n : nat) (j : job) : job :=
  settle (Resolved mime n) j.

(** The promise executor; [ctx] tells whether [getContext('2d')] succeeded. *)
Definition burnSubtitles (ctx : bool) : job :=
  let j := {| handlers := false; recorder := None; sessions := 0;
              starts := 0; timers := 0; stopping := false; rejects := 0;
              surfaced := [] |} in
  if ctx
  then {| handlers := true; recorder := None; sessions := 0;
          starts := 0; timers := 0; stopping := false; rejects := 0;
          surfaced := [] |}
  else reject "Could not get canvas context" j.

Definition chooseMimeType (vp9 mp4 : bool) : string :=
  if vp9 then "video/webm; codecs=vp9"
  else if mp4 then "video/mp4"
  else "video/webm".

Definition withRecorder (r : option MediaRecorder) (j : job) : job :=
  {| handlers := handlers j; recorder := r; sessions := sessions j;
     starts := starts j; timers := timers j; stopping := stopping j;
     rejects := rejects j; surfaced := surfaced j |}.

(** One event delivered to the job. *)
Definition step (j : job) (e : event) : job :=
  match e with
  | loadedmetadata vp9 mp4 =>
      if handlers j then
        {| handlers := true;
           recorder := Some {| mimeType := chooseMimeType vp9 mp4;
                               state := recording; chunks := 0 |};
           sessions := S (sessions j); starts := S (starts j);
           timers := timers j; stopping := stopping j;
           rejects := rejects j; surfaced := surfaced j |}
      else j
  | error =>
      if handlers j then reject "Video playback error during processing" j
      else j
  | ended =>
      if handlers j then
        {| handlers := true; recorder := recorder j; sessions := sessions j;
           starts := starts j; timers := S (timers j);
           stopping := stopping j; rejects := rejects j;
           surfaced := surfaced j |}
      else j
  | timeout =>
      match timers j with
      | O => j
      | S k =>
          let j' := {| handlers := handlers j; recorder := recorder j;
                       sessions := sessions j; starts := starts j;
                       timers := k; stopping := stopping j;
                       rejects := rejects j; surfaced := surfaced j |} in
          match recorder j with
          | Some r =>
              match state r with
              | recording =>
                  {| handlers := handlers j;
                     recorder := Some {| mimeType := mimeType r;
                                         state := inactive;
                                         chunks := chunks r |};
                     sessions := sessions j; starts := starts j;
                     timers := k; stopping := true;
                     rejects := rejects j; surfaced := surfaced j |}
              | inactive => j'
              end
          | None => j'
          end
      end
  | dataavailable size =>
      match recorder j with
      | Some r =>
          if (0 <? size)%nat
          then withRecorder (Some {| mimeType := mimeType r; state := state r;
                                     chunks := S (chunks r) |}) j
          else j
      | None => j
      end
  | stop =>
      match recorder j with
      | Some r =>
          if stopping j
          then resolve (mimeType r) (chunks r)
                 {| handlers := handlers j; recorder := recorder j;
                    sessions := sessions j; starts := starts j;
                    timers := timers j; stopping := false;
                    rejects := rejects j; surfaced := surfaced j |}
          else j
      | None => j
      end
  | playRejected reason =>
      match recorder j with
      | Some _ => reject reason j
      | None => j
      end
  end.

Definition run (j : job) (trace : list event) : job := fold_left step trace j.

Definition isLoadedmetadata (e : event) : bool :=
  match e with loadedmetadata _ _ => true | _ => false end.

Definition isError (e : event) : bool :=
  match e with error => true | _ => false end.

End Burn.

(** ** Auxiliary definitions used by the statements *)

(** The order of JavaScript numbers as a proposition: NaN is unordered. *)
Definition number_le (a b : number) : Prop :=
  match a, b with
  | NaN, _ | _, NaN => False
  | Inf true, _ => True
  | _, Inf false => True
  | Inf false, _ => False
  | _, Inf true => False
  | Fin x, Fin y => (x <= y)%Q
  end.

(** [t] lies in the closed interval [[startTime c, endTime c]]. *)
Definition inInterval (t : number) (c : SubtitleCue) : Prop :=
  number_le (startTime c) t /\ number_le t (endTime c).

(** Nearest integer, halves up. *)
Definition Qround (q : Q) : Z := Qfloor (q + (1 # 2)).

(** Before [loadedmetadata] nothing of the encoder exists. *)
Definition idle (j : Burn.job) : Prop :=
  Burn.recorder j = None /\ Burn.sessions j = 0%nat /\ Burn.starts j = 0%nat.

(** [c] occurs in [s]. *)
Fixpoint occurs (c : ascii) (s : string) : bool :=
  match s with
  | EmptyString => false
  | String a rest => Ascii.eqb a c || occurs c rest
  end.

(** The words of a text: its paragraphs split on single spaces. *)
Definition words (text : string) : list string :=
  flat_map (Str.split SP) (Str.split LF text).

(** Every character of [s] is a decimal digit. *)
Fixpoint allDigits (s : string) : bool :=
  match s with
  | EmptyString => true
  | String c rest =>
      match Str.digitVal c with Some _ => allDigits rest | None => false end
  end.

(** The value [parseDigits] accumulates, started at [a]. *)
Fixpoint horner (a : N) (s : string) : N :=
  match s with
  | EmptyString => a
  | String c rest =>
      match Str.digitVal c with
      | Some d => horner (10 * a + d) rest
      | None => a
      end
  end.



(** The strings [parseSRTTime] hands to [parseInt]: the hours if there are
    three parts, the minutes, the seconds and the fraction. *)
Definition fieldsRead (timeString : string) : list string :=
  let parts := Str.split ":" (Str.replace "," "." timeString) in
  match parts with
  | [p0; p1; p2] =>
      let secondsParts := Str.split "." p2 in
      [p0; p1; hd EmptyString secondsParts; fractionField secondsParts]
  | [p0; p1] =>
      let secondsParts := Str.split "." p1 in
      [p0; hd EmptyString secondsParts; fractionField secondsParts]
  | _ => []
  end.



(** ** More of src/utils/videoProcessor.ts *)

(** [a.join(sep)] for a one-character separator. *)
Fixpoint Array_join (sep : ascii) (a : list string) : string :=
  match a with
  | [] => EmptyString
  | x :: rest =>
      match rest with
      | [] => x
      | _ => (x ++ String sep (Array_join sep rest))%string
      end
  end.

(** A call [ctx.fillText(line, x, lineY)]; the text is centred on [x] and
    its bottom is at [lineY] ([textAlign = 'center'],
    [textBaseline = 'bottom']). *)
Record TextCall : Type := {
  callText : string;
  callX : Q;
  callY : Q
}.

(** [reversed.forEach((line, index) => ... ctx.fillText(line, x, lineY))]
    with [lineY = y - index * lineHeight], from [index] on. *)
Fixpoint fillTextFrom (index : nat) (reversed : list string)
  (x y lineHeight : Q) : list TextCall :=
  match reversed with
  | [] => []
  | line :: rest =>
      {| callText := line; callX := x;
         callY := (y - inject_Z (Z.of_nat index) * lineHeight)%Q |}
      :: fillTextFrom (S index) rest x y lineHeight
  end.

(** The text lines of [drawSubtitleOnCanvas]: [lines.reverse().forEach ...]. *)
Definition fillTextCalls (lines : list string) (x y lineHeight : Q)
  : list TextCall :=
  fillTextFrom 0 (rev lines) x y lineHeight.

(** ** More about the burn job *)


(** The data events that carry a non-empty chunk. *)
Definition nonEmptyChunks (sizes : list nat) : nat :=
  List.length (filter (fun size => (0 <? size)%nat) sizes).


(** ** src/App.tsx: the cue list, its edits and the undo history

    A handler runs on the state of the last render, so [cues] and [history]
    in a handler are the current state. *)

Module App.

(** [a - b], which is [a + (-b)]. *)
Definition neg (a : number) : number :=
  match a with
  | NaN => NaN
  | Inf s => Inf (negb s)
  | Fin q => Fin (Qred (- q))
  end.

Definition sub (a b : number) : number := add a (neg b).

(** [v > 0], as [Array.prototype.sort] reads the value of a comparator. *)
Definition positive (v : number) : bool :=
  match v with
  | NaN => false
  | Inf s => negb s
  | Fin q => Qltb 0 q
  end.

(** [Array.prototype.sort(cmp)] as a stable insertion sort: [x], which comes
    later, goes before the first element that [cmp] puts after it.  The
    standard asks for a stable sort, so for a consistent comparator every
    engine gives this order; for an inconsistent one (NaN among the keys)
    the order is implementation-defined and this is one possible result. *)
Fixpoint insertSorted {A : Type} (cmp : A -> A -> number) (x : A)
  (sorted : list A) : list A :=
  match sorted with
  | [] => [x]
  | y :: rest =>
      if positive (cmp y x) then x :: y :: rest
      else y :: insertSorted cmp x rest
  end.

Definition Array_sort {A : Type} (cmp : A -> A -> number) (a : list A)
  : list A :=
  fold_left (fun sorted x => insertSorted cmp x sorted) a [].

(** [Partial<SubtitleCue>] *)
Record updates : Type := {
  u_id : option string;
  u_startTime : option number;
  u_endTime : option number;
  u_text : option string
}.

(** [{ ...c, ...updates }] *)
Definition spread (c : SubtitleCue) (u : updates) : SubtitleCue :=
  {| id := match u_id u with Some v => v | None => id c end;
     startTime :=
       match u_startTime u with Some v => v | None => startTime c end;
     endTime := match u_endTime u with Some v => v | None => endTime c end;
     text := match u_text u with Some v => v | None => text c end |}.

(** [{ text: e.target.value }], the update the editor sends. *)
Definition textUpdate (value : string) : updates :=
  {| u_id := None; u_startTime := None; u_endTime := None;
     u_text := Some value |}.

(** [cues.map(c => c.id === id ? { ...c, ...updates } : c)] *)
Definition onUpdateCue (cues : list SubtitleCue) (i : string) (u : updates)
  : list SubtitleCue :=
  map (fun c => if String.eqb (id c) i then spread c u else c) cues.

(** [cues.filter(c => c.id !== id)] *)
Definition onDeleteCue (cues : list SubtitleCue) (i : string)
  : list SubtitleCue :=
  filter (fun c => negb (String.eqb (id c) i)) cues.

(** The cue of [onAddCue]; [now] is [Date.now().toString()]. *)
Definition newCue (start : number) (now : string) : SubtitleCue :=
  {| id := now; startTime := start; endTime := add start (num 2);
     text := "New Subtitle" |}.

(** [[...cues, newCue].sort((a, b) => a.startTime - b.startTime)] *)
Definition onAddCue (cues : list SubtitleCue) (currentTime : number)
  (now : string) : list SubtitleCue :=
  Array_sort (fun a b => sub (startTime a) (startTime b))
             (cues ++ [newCue currentTime now]).

(** The state of the editor: the cues and the two stacks of the history. *)
Record editor : Type := {
  cues : list SubtitleCue;
  past : list (list SubtitleCue);
  future : list (list SubtitleCue)
}.

(** [useState]: no cues and an empty history. *)
Definition initial : editor := {| cues := []; past := []; future := [] |}.

Definition handleCuesChange (s : editor) (newCues : list SubtitleCue)
  : editor :=
  let newPast := past s ++ [cues s] in
  {| cues := newCues;
     past := if (50 <? List.length newPast)%nat then tl newPast else newPast;
     future := [] |}.

Definition undo (s : editor) : editor :=
  match past s with
  | [] => s
  | _ =>
      let previous := last (past s) (cues s) in
      let newPast := removelast (past s) in
      {| cues := previous; past := newPast; future := cues s :: future s |}
  end.

Definition redo (s : editor) : editor :=
  match future s with
  | [] => s
  | next :: newFuture =>
      {| cues := next; past := past s ++ [cues s]; future := newFuture |}
  end.

(** What the user does to the cue list. *)
Inductive action : Type :=
| Change (newCues : list SubtitleCue)
| Undo
| Redo.

Definition act (s : editor) (a : action) : editor :=
  match a with
  | Change newCues => handleCuesChange s newCues
  | Undo => undo s
  | Redo => redo s
  end.

End App.

(** Cues in the order of their start times. *)
Definition startsBefore (a b : SubtitleCue) : Prop :=
  number_le (startTime a) (startTime b).

(** The start time of [c] is a finite number. *)
Definition finiteStart (c : SubtitleCue) : Prop :=
  exists q, startTime c = Fin q.

(** ** src/utils/srtParser.ts: parseSRT and generateSRT *)

Module Srt.

Local Open Scope string_scope.

(** [s.trim()]: white space as in [Str.isWhite]. *)
Fixpoint trimEnd (s : string) : string :=
  match s with
  | EmptyString => EmptyString
  | String c rest =>
      match trimEnd rest with
      | EmptyString => if Str.isWhite c then EmptyString else String c ""
      | kept => String c kept
      end
  end.

Definition trim (s : string) : string := trimEnd (Str.skipWhite s).

(** Put [c] in front of the first piece. *)
Definition consHead (c : ascii) (pieces : list string) : list string :=
  match pieces with
  | [] => [String c ""]
  | w :: ws => String c w :: ws
  end.

(** The regular expression [/\n\s*\n/] after its first line break: the
    number of characters the greedy [\s*\n] takes from [s], if it matches. *)
Fixpoint blankLen (s : string) : option nat :=
  match s with
  | EmptyString => None
  | String c rest =>
      if Str.isWhite c then
        match blankLen rest with
        | Some n => Some (S n)
        | None => if Ascii.eqb c LF then Some 1%nat else None
        end
      else None
  end.

(** [s.split(/\n\s*\n/)]; [skip] characters still belong to the separator
    just matched. *)
Fixpoint splitBlocksFrom (skip : nat) (s : string) : list string :=
  match s with
  | EmptyString => [EmptyString]
  | String c rest =>
      match skip with
      | S k => splitBlocksFrom k rest
      | O =>
          match (if Ascii.eqb c LF then blankLen rest else None) with
          | Some n => EmptyString :: splitBlocksFrom n rest
          | None => consHead c (splitBlocksFrom 0 rest)
          end
      end
  end.

Definition splitBlocks (s : string) : list string := splitBlocksFrom 0 s.

(** [s.replace(/<[^>]*>/g, '')]; [inTag] says that a tag is open. *)
Fixpoint stripTagsFrom (inTag : bool) (s : string) : string :=
  match s with
  | EmptyString => EmptyString
  | String c rest =>
      if inTag then
        stripTagsFrom (negb (Ascii.eqb c ">")) rest
      else if Ascii.eqb c "<" && occurs ">" rest then stripTagsFrom true rest
      else String c (stripTagsFrom false rest)
  end.

Definition stripTags (s : string) : string := stripTagsFrom false s.

(** [s.includes(sub)] *)
Fixpoint includes (sub s : string) : bool :=
  if String.prefix sub s then true
  else match s with
       | EmptyString => false
       | String _ rest => includes sub rest
       end.

(** [s.split(sep)] for a separator of one character or more. *)
Fixpoint splitOnFrom (sep : string) (skip : nat) (s : string) : list string :=
  match s with
  | EmptyString => [EmptyString]
  | String c rest =>
      match skip with
      | S k => splitOnFrom sep k rest
      | O =>
          if String.prefix sep s
          then EmptyString :: splitOnFrom sep (String.length sep - 1) rest
          else consHead c (splitOnFrom sep 0 rest)
      end
  end.

Definition splitOn (sep s : string) : list string := splitOnFrom sep 0 s.

(** The index of the first line that includes ["-->"]. *)
Fixpoint timeLineIndex (lines : list string) : option nat :=
  match lines with
  | [] => None
  | line :: rest =>
      if includes "-->" line then Some 0%nat
      else option_map S (timeLineIndex rest)
  end.

Definition nonEmpty (s : string) : bool :=
  match s with EmptyString => false | _ => true end.

(** The body of [blocks.forEach]: the cue pushed for [block], if any;
    [newId] is [Math.random().toString(36).substr(2, 9)]. *)
Definition parseBlock (newId : string) (block : string)
  : option SubtitleCue :=
  if String.eqb (trim block) "WEBVTT" || String.prefix "WEBVTT" block
  then None
  else
    let lines := Str.split LF block in
    if (2 <=? List.length lines)%nat then
      match timeLineIndex lines with
      | None => None
      | Some index =>
          let timeLine := nth index lines EmptyString in
          let parts := splitOn " --> " timeLine in
          match nth_error parts 0, nth_error parts 1 with
          | Some startStr, Some endStr =>
              if nonEmpty startStr && nonEmpty endStr then
                let textLines := skipn (index + 1) lines in
                let rawText := trim (Array_join LF textLines) in
                let cleanText := stripTags rawText in
                Some {| id := newId;
                        startTime := parseSRTTime (trim startStr);
                        endTime :=
                          parseSRTTime
                            (hd EmptyString (Str.split " " (trim endStr)));
                        text := cleanText |}
              else None
          | _, _ => None
          end
      end
    else None.

(** The cues pushed for [blocks]; [ids k] is the id drawn for the cue pushed
    when [k] cues are in the list. *)
Fixpoint parseBlocks (ids : nat -> string) (pushed : nat)
  (blocks : list string) : list SubtitleCue :=
  match blocks with
  | [] => []
  | block :: rest =>
      match parseBlock (ids pushed) block with
      | Some cue => cue :: parseBlocks ids (S pushed) rest
      | None => parseBlocks ids pushed rest
      end
  end.

Definition parseSRT (ids : nat -> string) (srtContent : string)
  : list SubtitleCue :=
  parseBlocks ids 0 (splitBlocks (trim srtContent)).

(** One element of [cues.map((cue, index) => ...)] in [generateSRT]. *)
Definition cueBlock (index : nat) (cue : SubtitleCue) : string :=
  Str.toString (IInt (Z.of_nat index + 1)) ++ String LF
    (formatSRTTime (startTime cue) ++ " --> " ++ formatSRTTime (endTime cue)
     ++ String LF (text cue ++ String LF "")).

Fixpoint cueBlocksFrom (index : nat) (cues : list SubtitleCue)
  : list string :=
  match cues with
  | [] => []
  | cue :: rest => cueBlock index cue :: cueBlocksFrom (S index) rest
  end.

Definition generateSRT (cues : list SubtitleCue) : string :=
  Array_join LF (cueBlocksFrom 0 cues).

End Srt.

(** [s] holds a complete tag: a ["<"] with a [">"] somewhere after it. *)
Fixpoint hasTag (s : string) : bool :=
  match s with
  | EmptyString => false
  | String c rest => (Ascii.eqb c "<" && occurs ">" rest) || hasTag rest
  end.

(** Every character of [s] is white space. *)
Fixpoint allWhite (s : string) : bool :=
  match s with
  | EmptyString => true
  | String c rest => Str.isWhite c && allWhite rest
  end.

(** ** Export and import of a subtitle file: auxiliary notions *)

(** Every character of [s] satisfies [p]. *)
Fixpoint allChars (p : ascii -> bool) (s : string) : bool :=
  match s with
  | EmptyString => true
  | String c rest => p c && allChars p rest
  end.

Definition startsNonWhite (s : string) : bool :=
  match s with
  | EmptyString => false
  | String c _ => negb (Str.isWhite c)
  end.

Fixpoint endsNonWhite (s : string) : bool :=
  match s with
  | EmptyString => false
  | String c rest =>
      match rest with
      | EmptyString => negb (Str.isWhite c)
      | _ => endsNonWhite rest
      end
  end.

(** A character of a timecode: a digit, a colon or a comma. *)
Definition timecodeChar (c : ascii) : bool :=
  match Str.digitVal c with
  | Some _ => true
  | None => Ascii.eqb c ":" || Ascii.eqb c ","
  end.

(** A text an export and an import carry unchanged: it starts and ends with
    a character that is not white space, holds no complete tag and no blank
    line (no match of [/\n\s*\n/]). *)
Definition plainText (t : string) : Prop :=
  startsNonWhite t = true /\ endsNonWhite t = true
  /\ hasTag t = false /\ Srt.splitBlocks t = [t].

(** A finite time in the range of the subtitle format. *)
Definition inRange (n : number) : Prop :=
  exists q, n = Fin q /\ (0 <= q)%Q /\ (q <= 359999999 # 1000)%Q.

Definition exportable (c : SubtitleCue) : Prop :=
  inRange (startTime c) /\ inRange (endTime c) /\ plainText (text c).

(** The cue an import of the export gives for [c]: a new id, the times
    through [formatSRTTime] and [parseSRTTime], the same text. *)
Definition reimported (newId : string) (c : SubtitleCue) : SubtitleCue :=
  {| id := newId;
     startTime := parseSRTTime (formatSRTTime (startTime c));
     endTime := parseSRTTime (formatSRTTime (endTime c));
     text := text c |}.

Fixpoint reimportedFrom (ids : nat -> string) (k : nat)
  (cues : list SubtitleCue) : list SubtitleCue :=
  match cues with
  | [] => []
  | c :: rest => reimported (ids k) c :: reimportedFrom ids (S k) rest
  end.

(** Put [p] in front of the first piece. *)
Definition prependHead (p : string) (pieces : list string) : list string :=
  match pieces with
  | [] => [p]
  | w :: ws => (p ++ w)%string :: ws
  end.

(** The line of the two timecodes, and a block without its last line
    break. *)
Definition timeLine (c : SubtitleCue) : string :=
  (formatSRTTime (startTime c) ++ " --> " ++ formatSRTTime (endTime c))%string.

Definition blockBody (k : nat) (c : SubtitleCue) : string :=
  (Str.toString (IInt (Z.of_nat k + 1))
   ++ String LF (timeLine c ++ String LF (text c)))%string.

(** The blocks of [generateSRT], two line breaks between them, without the
    last line break. *)
Fixpoint joinedBodies (k : nat) (cues : list SubtitleCue) : string :=
  match cues with
  | [] => EmptyString
  | c :: rest =>
      match rest with
      | [] => blockBody k c
      | _ => (blockBody k c
              ++ String LF (String LF (joinedBodies (S k) rest)))%string
      end
  end.

Fixpoint bodiesFrom (k : nat) (cues : list SubtitleCue) : list string :=
  match cues with
  | [] => []
  | c :: rest => blockBody k c :: bodiesFrom (S k) rest
  end.

(** * Theorems *)

(** ** Active cue *)

Lemma le_spec (a b : number) : le a b = true <-> number_le a b.
Proof.
  destruct a as [|[]|x], b as [|[]|y]; simpl;
    try (split; [discriminate | contradiction]);
    try (split; [intros _; exact I | reflexivity]).
  apply Qle_bool_iff.
Qed.

Lemma cueContains_spec (t : number) (c : SubtitleCue) :
  cueContains t c = true <-> inInterval t c.
Proof.
  unfold cueContains, inInterval, ge.
  rewrite andb_true_iff, !le_spec. reflexivity.
Qed.

Lemma Array_find_Some {A : Type} (p : A -> bool) (xs : list A) (x : A) :
  Array_find p xs = Some x <->
  exists before after,
    xs = before ++ x :: after /\ p x = true /\
    forall y, In y before -> p y = false.
Proof.
  induction xs as [|a xs IH]; simpl.
  - split; [discriminate|].
    intros (before & after & E & _). destruct before; discriminate.
  - destruct (p a) eqn:Pa.
    + split.
      * intros [= <-]. exists [], xs. simpl. tauto.
      * intros (before & after & E & Px & Hb).
        destruct before as [|b before]; simpl in E; injection E as <- E.
        -- reflexivity.
        -- rewrite (Hb a) in Pa by now left. discriminate.
    + rewrite IH. split.
      * intros (before & after & -> & Px & Hb).
        exists (a :: before), after. simpl. repeat split; auto.
        intros y [<-|Hy]; auto.
      * intros (before & after & E & Px & Hb).
        destruct before as [|b before]; simpl in E; injection E as <- E.
        -- congruence.
        -- exists before, after. repeat split; auto.
           intros y Hy. apply Hb. now right.
Qed.

Lemma Array_find_None {A : Type} (p : A -> bool) (xs : list A) :
  Array_find p xs = None <-> forall y, In y xs -> p y = false.
Proof.
  induction xs as [|a xs IH]; simpl.
  - split; [contradiction | reflexivity].
  - destruct (p a) eqn:Pa.
    + split; [discriminate|]. intros H.
      rewrite (H a) in Pa by now left. discriminate.
    + rewrite IH. split.
      * intros H y [<-|Hy]; auto.
      * intros H y Hy. apply H. now right.
Qed.

(** C2: the active cue is the first cue in list order whose closed interval
    contains the query time, whatever the cues after it are; no cue is
    active in the empty list; the scan is total on lists in any order. *)
Theorem activeCue_first_match (cues : list SubtitleCue) (t : number) :
  activeCue [] t = None
  /\ (forall c, activeCue cues t = Some c <->
        exists before after,
          cues = before ++ c :: after /\ inInterval t c /\
          forall d, In d before -> ~ inInterval t d)
  /\ (activeCue cues t = None <-> forall d, In d cues -> ~ inInterval t d).
Proof.
  split; [reflexivity|]. unfold activeCue. split.
  - intros c. rewrite Array_find_Some. split.
    + intros (before & after & E & Pc & Hb). exists before, after.
      repeat split; try apply cueContains_spec; auto.
      intros d Hd Hin. apply cueContains_spec in Hin.
      rewrite (Hb d Hd) in Hin. discriminate.
    + intros (before & after & E & Pc & Hb). exists before, after.
      repeat split; try apply cueContains_spec; auto.
      intros d Hd. destruct (cueContains t d) eqn:Ed; auto.
      exfalso. apply (Hb d Hd). now apply cueContains_spec.
  - rewrite Array_find_None. split.
    + intros H d Hd Hin. apply cueContains_spec in Hin.
      rewrite (H d Hd) in Hin. discriminate.
    + intros H d Hd. destruct (cueContains t d) eqn:Ed; auto.
      exfalso. apply (H d Hd). now apply cueContains_spec.
Qed.

(** Two overlapping cues, the later one listed first: the first in list
    order is chosen. *)
Example activeCue_overlap :
  let a := {| id := "a"; startTime := num 5; endTime := num 9;
              text := "later" |} in
  let b := {| id := "b"; startTime := num 0; endTime := num 7;
              text := "earlier" |} in
  activeCue [a; b] (num 6) = Some a
  /\ activeCue [a; b] (num 7) = Some a
  /\ activeCue [a; b] (num 3) = Some b
  /\ activeCue [a; b] (num 10) = None
  /\ activeCue [a; b] NaN = None.
Proof. repeat split. Qed.

(** ** Progress *)

Lemma Qzerob_false (q : Q) : ~ (q == 0)%Q -> Qzerob q = false.
Proof.
  intros H. unfold Qzerob. destruct (Qeq_bool q 0) eqn:E; auto.
  apply Qeq_bool_iff in E. contradiction.
Qed.

Lemma Qfloor_unique (q : Q) (z : Z) :
  (inject_Z z <= q)%Q -> (q < inject_Z (z + 1))%Q -> Qfloor q = z.
Proof.
  intros Hlo Hhi. apply Z.le_antisymm.
  - apply Z.lt_succ_r. rewrite Zlt_Qlt.
    apply Qle_lt_trans with q; [apply Qfloor_le | exact Hhi].
  - rewrite <- (Qfloor_Z z). now apply Qfloor_resp_le.
Qed.

Lemma Qfloor_ge (z : Z) (q : Q) : (inject_Z z <= q)%Q -> z <= Qfloor q.
Proof.
  intros H. apply Qfloor_resp_le in H. now rewrite Qfloor_Z in H.
Qed.

Lemma Math_min_100 (k : Z) :
  Math_min (num 100) (IInt k) = num (Z.min k 100).
Proof.
  unfold Math_min, num, of_integral, le.
  destruct (Qle_bool (inject_Z 100) (inject_Z k)) eqn:E.
  - apply Qle_bool_iff in E. rewrite <- Zle_Qle in E.
    now rewrite Z.min_r.
  - assert (H : ~ (100 <= k)).
    { intros H. rewrite Zle_Qle in H. apply Qle_bool_iff in H. congruence. }
    rewrite Z.min_l by lia. reflexivity.
Qed.

Lemma progress_finite (t d : Q) :
  ~ (d == 0)%Q ->
  progress (Fin t) (Fin d) = num (Z.min (Qround (t / d * 100)) 100).
Proof.
  intros Hd. unfold progress, div. rewrite (Qzerob_false d Hd).
  unfold num at 2. unfold mul, Math_round. rewrite Math_min_100.
  f_equal. f_equal. unfold Qround. apply Qfloor_comp.
  now rewrite !Qred_correct.
Qed.

(** Outside the values a playing element reports the code does not clamp:
    a negative time gives a negative value, and 0/0 gives NaN. *)
Lemma progress_not_clamped :
  progress (num (-1)) (num 1) = num (-100)
  /\ clamp (Qround ((-1) / 1 * 100)) 0 100 = 0
  /\ progress (num 0) (num 0) = NaN.
Proof. repeat split. Qed.

Lemma round_ratio (t d : Q) :
  ~ (d == 0)%Q ->
  Math_round (mul (div (Fin t) (Fin d)) (num 100))
  = IInt (Qround (t / d * 100)).
Proof.
  intros Hd. unfold div. rewrite (Qzerob_false d Hd).
  unfold mul, num, Math_round. f_equal. unfold Qround.
  apply Qfloor_comp. now rewrite !Qred_correct.
Qed.

Lemma clampNumber_int (k : Z) :
  clampNumber (IInt k) (num 0) (num 100) = num (clamp k 0 100).
Proof.
  unfold clampNumber, clamp.
  assert (Hmin : Math_min (IInt k) (num 100) = num (Z.min k 100)).
  { unfold Math_min, num, of_integral, le.
    destruct (Qle_bool (inject_Z k) (inject_Z 100)) eqn:E.
    - apply Qle_bool_iff in E. rewrite <- Zle_Qle in E.
      now rewrite Z.min_l.
    - assert (H : ~ (k <= 100)).
      { intros H. rewrite Zle_Qle in H. apply Qle_bool_iff in H.
        congruence. }
      rewrite Z.min_r by lia. reflexivity. }
  rewrite Hmin. generalize (Z.min k 100). intros m.
  unfold Math_max, num, le.
  destruct (Qle_bool (inject_Z 0) (inject_Z m)) eqn:E.
  - apply Qle_bool_iff in E. rewrite <- Zle_Qle in E.
    now rewrite Z.max_r.
  - assert (H : ~ (0 <= m)).
    { intros H. rewrite Zle_Qle in H. apply Qle_bool_iff in H. congruence. }
    rewrite Z.max_l by lia. reflexivity.
Qed.

(** C7: for every playback time and duration the frame loop can read, the
    progress it reports is [clamp(round(t / d * 100), 0, 100)], an integer
    from 0 to 100. *)
Theorem progress_is_clamp (currentTime duration : number) :
  playback currentTime duration ->
  progress currentTime duration
  = clampNumber (Math_round (mul (div currentTime duration) (num 100)))
      (num 0) (num 100)
  /\ exists k : Z, progress currentTime duration = num k /\ 0 <= k <= 100.
Proof.
  destruct currentTime as [|s|t]; try contradiction.
  destruct duration as [|[]|d]; try contradiction.
  - (* an infinite duration *)
    intros _. split; [reflexivity|]. exists 0. split; [reflexivity | lia].
  - intros (Ht & Hd & Hnz).
    destruct (Qlt_le_dec 0 d) as [Hpos|Hzero].
    + assert (Hne : ~ (d == 0)%Q)
        by (intros E; rewrite E in Hpos; discriminate).
      assert (Hr : 0 <= Qround (t / d * 100)).
      { apply Qfloor_ge.
        assert (0 <= t / d)%Q.
        { apply Qle_shift_div_l; auto. now rewrite Qmult_0_l. }
        change (inject_Z 0) with 0%Q. lra. }
      rewrite progress_finite, round_ratio, clampNumber_int by exact Hne.
      unfold clamp. split; [f_equal; lia|].
      exists (Z.min (Qround (t / d * 100)) 100). split; [reflexivity | lia].
    + assert (Ed : (d == 0)%Q) by (apply Qle_antisym; assumption).
      assert (Hz : Qzerob d = true) by (now apply Qeq_bool_iff).
      assert (Htz : Qzerob t = false).
      { apply Qzerob_false. intros E. apply Hnz. now split. }
      assert (Htn : Qnegb t = false).
      { unfold Qnegb, Qltb.
        now rewrite (proj2 (Qle_bool_iff 0 t) Ht). }
      unfold progress, div. rewrite Hz, Htz, Htn.
      split; [reflexivity|]. exists 100. split; [reflexivity | lia].
Qed.

Lemma progress_is_clamp_witness :
  progress (Fin (1 # 1)) (Fin (3 # 1)) = num 33
  /\ progress (Fin (5 # 1)) (Inf false) = num 0.
Proof.
  split.
  - refine (proj1 (progress_is_clamp (Fin (1 # 1)) (Fin (3 # 1)) _)).
    split; [discriminate|]. split; [discriminate|].
    intros [H _]. discriminate H.
  - refine (proj1 (progress_is_clamp (Fin (5 # 1)) (Inf false) _)).
    discriminate.
Defined.

(** ** Burn job: failure while the metadata loads *)

Module BurnFacts.
Import Burn.

Local Open Scope string_scope.

Lemma step_idle (j : job) (e : event) :
  isLoadedmetadata e = false -> idle j -> idle (step j e).
Proof.
  intros He (Hr & Hs & Hst). unfold idle.
  destruct e; try discriminate; simpl; rewrite ?Hr;
    try (destruct (handlers j)); try (destruct (timers j)); simpl; auto.
Qed.

Lemma step_handlers (j : job) (e : event) :
  handlers (step j e) = handlers j.
Proof.
  destruct e; simpl;
    repeat match goal with
           | |- context [match ?x with _ => _ end] => destruct x eqn:?; simpl
           end; auto.
Qed.

Lemma step_surfaced_kept (j : job) (e : event) (o : outcome) :
  surfaced j = [o] -> surfaced (step j e) = [o].
Proof.
  intros H. destruct e; simpl;
    repeat match goal with
           | |- context [match ?x with _ => _ end] => destruct x eqn:?; simpl
           end; auto; try congruence.
Qed.

Lemma step_surfaced_idle (j : job) (e : event) :
  isLoadedmetadata e = false -> idle j -> handlers j = true ->
  surfaced j = [] ->
  surfaced (step j e) =
    if isError e then [Rejected "Video playback error during processing"]
    else [].
Proof.
  intros He (Hr & _) Hh Hs.
  destruct e; try discriminate; simpl; rewrite ?Hr, ?Hh; simpl;
    try (destruct (timers j)); simpl; rewrite ?Hs; auto.
Qed.

Lemma run_idle (trace : list event) (j : job) :
  forallb (fun e => negb (isLoadedmetadata e)) trace = true ->
  idle j -> idle (run j trace).
Proof.
  revert j. induction trace as [|e trace IH]; simpl; intros j Ht Hj; auto.
  apply andb_true_iff in Ht as [He Ht]. apply negb_true_iff in He.
  apply IH; auto. now apply step_idle.
Qed.

Lemma run_surfaced_kept (trace : list event) (j : job) (o : outcome) :
  surfaced j = [o] -> surfaced (run j trace) = [o].
Proof.
  revert j. induction trace as [|e trace IH]; simpl; intros j H; auto.
  apply IH. now apply step_surfaced_kept.
Qed.

Lemma run_surfaced_error (trace : list event) (j : job) :
  forallb (fun e => negb (isLoadedmetadata e)) trace = true ->
  existsb isError trace = true ->
  idle j -> handlers j = true -> surfaced j = [] ->
  surfaced (run j trace) = [Rejected "Video playback error during processing"].
Proof.
  revert j. induction trace as [|e trace IH]; simpl; intros j Ht He Hj Hh Hs.
  - discriminate.
  - apply andb_true_iff in Ht as [Hl Ht]. apply negb_true_iff in Hl.
    pose proof (step_surfaced_idle j e Hl Hj Hh Hs) as Hstep.
    destruct (isError e) eqn:Ee.
    + now apply run_surfaced_kept.
    + simpl in He. apply IH; auto.
      * now apply step_idle.
      * now rewrite step_handlers.
Qed.

Lemma forallb_app_l {A : Type} (p : A -> bool) (l1 l2 : list A) :
  forallb p (l1 ++ l2) = true -> forallb p l1 = true.
Proof. rewrite forallb_app, andb_true_iff. tauto. Qed.

End BurnFacts.

(** C9: when the source fails while its metadata loads (an [error] event and
    no [loadedmetadata] event), no recorder is ever constructed or started,
    at no point of the run, and the caller receives exactly one outcome, a
    rejection. *)
Theorem metadata_failure_no_encoder (ctx : bool) (trace : list Burn.event) :
  forallb (fun e => negb (Burn.isLoadedmetadata e)) trace = true ->
  existsb Burn.isError trace = true ->
  (forall pre post, trace = pre ++ post ->
     Burn.recorder (Burn.run (Burn.burnSubtitles ctx) pre) = None
     /\ Burn.sessions (Burn.run (Burn.burnSubtitles ctx) pre) = 0%nat
     /\ Burn.starts (Burn.run (Burn.burnSubtitles ctx) pre) = 0%nat)
  /\ Burn.surfaced (Burn.run (Burn.burnSubtitles ctx) trace) =
       [Burn.Rejected
          (if ctx then "Video playback error during processing"
           else "Could not get canvas context")%string].
Proof.
  intros Ht He. split.
  - intros pre post ->. apply BurnFacts.forallb_app_l in Ht.
    apply (BurnFacts.run_idle pre _ Ht). destruct ctx; repeat split.
  - destruct ctx.
    + apply BurnFacts.run_surfaced_error; auto. repeat split.
    + now apply BurnFacts.run_surfaced_kept.
Qed.

Lemma metadata_failure_no_encoder_witness :
  Burn.surfaced
    (Burn.run (Burn.burnSubtitles true) [Burn.error; Burn.ended; Burn.timeout])
  = [Burn.Rejected "Video playback error during processing"%string].
Proof.
  exact (proj2 (metadata_failure_no_encoder true
                  [Burn.error; Burn.ended; Burn.timeout]
                  eq_refl eq_refl)).
Defined.

(** ** Strings *)

Section StringFacts.

Local Open Scope string_scope.

Lemma append_assoc (a b c : string) : (a ++ b) ++ c = a ++ (b ++ c).
Proof. induction a as [|x a IH]; simpl; congruence. Qed.

Lemma append_nil_r (a : string) : a ++ "" = a.
Proof. induction a as [|x a IH]; simpl; congruence. Qed.

Lemma occurs_app (c : ascii) (a b : string) :
  occurs c (a ++ b) = occurs c a || occurs c b.
Proof.
  induction a as [|x a IH]; simpl; auto. rewrite IH. apply orb_assoc.
Qed.

Lemma split_nonempty (sep : ascii) (s : string) : Str.split sep s <> [].
Proof.
  destruct s as [|c s]; simpl; [discriminate|].
  destruct (Ascii.eqb c sep); [discriminate|].
  destruct (Str.split sep s); discriminate.
Qed.

Lemma split_app (sep : ascii) (a b : string) :
  Str.split sep (a ++ String sep b)
  = (Str.split sep a ++ Str.split sep b)%list.
Proof.
  induction a as [|c a IH]; simpl.
  - now rewrite Ascii.eqb_refl.
  - destruct (Ascii.eqb c sep); rewrite IH; auto.
    pose proof (split_nonempty sep a) as Hne.
    destruct (Str.split sep a); [contradiction | reflexivity].
Qed.

Lemma split_id (sep : ascii) (w : string) :
  occurs sep w = false -> Str.split sep w = [w].
Proof.
  induction w as [|c w IH]; simpl; auto.
  intros H. apply orb_false_iff in H as [Hc Hw].
  rewrite Hc, (IH Hw). reflexivity.
Qed.

(** No part of a split contains a character the whole does not contain, and
    none contains the separator. *)
Lemma split_occurs (sep c : ascii) (s w : string) :
  In w (Str.split sep s) ->
  occurs sep w = false /\ (occurs c s = false -> occurs c w = false).
Proof.
  revert w. induction s as [|a s IH]; simpl; intros w Hw.
  - destruct Hw as [<-|[]]. auto.
  - destruct (Ascii.eqb a sep) eqn:Ea.
    + destruct Hw as [<-|Hw]; [simpl; auto|].
      destruct (IH w Hw) as [H1 H2]. split; auto.
      intros H. apply orb_false_iff in H as [_ H]. auto.
    + pose proof (split_nonempty sep s) as Hne.
      destruct (Str.split sep s) as [|w0 ws]; [contradiction|].
      destruct Hw as [<-|Hw].
      * destruct (IH w0 (or_introl eq_refl)) as [H1 H2]. simpl.
        rewrite Ea, H1. split; auto.
        intros H. apply orb_false_iff in H as [Hc H]. rewrite Hc. auto.
      * destruct (IH w (or_intror Hw)) as [H1 H2]. split; auto.
        intros H. apply orb_false_iff in H as [_ H]. auto.
Qed.

End StringFacts.

(** ** Word wrap *)

Lemma Qltb_spec (a b : Q) : Qltb a b = true <-> (a < b)%Q.
Proof.
  unfold Qltb. rewrite negb_true_iff. split.
  - intros H. apply Qnot_le_lt. intros Hle.
    apply Qle_bool_iff in Hle. congruence.
  - intros H. destruct (Qle_bool b a) eqn:E; auto.
    apply Qle_bool_iff in E. exfalso. now apply (Qlt_not_le a b).
Qed.

Section WrapFacts.

Variable measureText : string -> Q.
Variable maxWidth : Q.

Local Open Scope string_scope.

Lemma wrapWords_nonempty (ws : list string) (cur : string) :
  (1 <= List.length (wrapWords measureText maxWidth cur ws))%nat.
Proof.
  revert cur. induction ws as [|w ws IH]; simpl; intros cur; auto.
  destruct (Qltb _ _); simpl; auto with arith.
Qed.

(** Every line is the line under construction, a word still to place, or a
    line that was extended, which was measured under the bound. *)
Lemma wrapWords_lines (ws : list string) (cur line : string) :
  In line (wrapWords measureText maxWidth cur ws) ->
  line = cur \/ In line ws
  \/ ((measureText line < maxWidth)%Q /\ occurs SP line = true).
Proof.
  revert cur. induction ws as [|w ws IH]; simpl; intros cur H.
  - destruct H as [<-|[]]. auto.
  - destruct (Qltb (measureText (cur ++ String SP w)) maxWidth) eqn:E.
    + destruct (IH _ H) as [->|[H1|H1]]; auto.
      right. right. split; [now apply Qltb_spec|].
      rewrite occurs_app. simpl. apply orb_true_r.
    + destruct H as [<-|H]; auto.
      destruct (IH _ H) as [->|[H1|H1]]; auto.
Qed.

Lemma wrapWords_flush (cur word : string) (rest : list string) :
  (maxWidth <= measureText (cur ++ " " ++ word))%Q ->
  wrapWords measureText maxWidth cur (word :: rest)
  = cur :: wrapWords measureText maxWidth word rest.
Proof.
  intros H. simpl.
  destruct (Qltb (measureText (cur ++ String " " word)) maxWidth) eqn:E; auto.
  apply Qltb_spec in E. exfalso. now apply (Qlt_not_le _ _ E).
Qed.

Lemma wrapWords_words (ws : list string) (cur : string) :
  (forall w, In w ws -> occurs SP w = false) ->
  flat_map (Str.split SP) (wrapWords measureText maxWidth cur ws)
  = (Str.split SP cur ++ ws)%list.
Proof.
  revert cur. induction ws as [|w ws IH]; simpl; intros cur Hws.
  - reflexivity.
  - assert (Hw : occurs SP w = false) by (apply Hws; now left).
    assert (Hrest : forall v, In v ws -> occurs SP v = false)
      by (intros v Hv; apply Hws; now right).
    destruct (Qltb _ _).
    + rewrite (IH _ Hrest). change (String " " w) with (String SP w).
      rewrite split_app, (split_id SP w Hw), <- app_assoc. reflexivity.
    + simpl. rewrite (IH _ Hrest), (split_id SP w Hw). reflexivity.
Qed.

Lemma hd_tl_split (sep : ascii) (s : string) :
  hd EmptyString (Str.split sep s) :: tl (Str.split sep s) = Str.split sep s.
Proof.
  pose proof (split_nonempty sep s).
  destruct (Str.split sep s); [contradiction | reflexivity].
Qed.

Lemma wrapParagraph_words (p : string) :
  flat_map (Str.split SP) (wrapParagraph measureText maxWidth p)
  = Str.split SP p.
Proof.
  unfold wrapParagraph. change " "%char with SP.
  pose proof (hd_tl_split SP p) as E.
  assert (Hall : forall w, In w (Str.split SP p) -> occurs SP w = false).
  { intros w Hw. exact (proj1 (split_occurs SP SP p w Hw)). }
  rewrite <- E in Hall. rewrite wrapWords_words.
  - rewrite split_id; [exact E|]. apply Hall. now left.
  - intros w Hw. apply Hall. now right.
Qed.

Lemma wrapParagraph_lines (p line : string) :
  In line (wrapParagraph measureText maxWidth p) ->
  In line (Str.split SP p)
  \/ ((measureText line < maxWidth)%Q /\ occurs SP line = true).
Proof.
  unfold wrapParagraph. change " "%char with SP. intros H.
  rewrite <- (hd_tl_split SP p).
  destruct (wrapWords_lines _ _ _ H) as [->|[H1|H1]]; simpl; auto.
Qed.

End WrapFacts.

(** With the width of a line taken as its length and room for "a b" but not
    for "a b c", the text "a b c d" wraps into "a b" and "c d"; a word that
    is too wide stays whole on a line of its own. *)
Example wrapText_abcd :
  let measure := fun s => inject_Z (Z.of_nat (String.length s)) in
  wrapText measure "a b c d" 4 = ["a b"%string; "c d"%string]
  /\ wrapText measure "a  b" 10 = ["a  b"%string]
  /\ wrapText measure "extraordinary a" 4
     = ["extraordinary"%string; "a"%string].
Proof. repeat split. Qed.

(** C3: every line of the wrap either measures no more than [maxWidth] or
    is a single word of the text (no space, no line break inside) that is
    wider than [maxWidth] and is emitted as it stands; and a line is flushed
    as soon as adding the next word would exceed the bound. *)
Theorem wrapText_width_bound
  (measureText : string -> Q) (text : string) (maxWidth : Q) :
  (forall line, In line (wrapText measureText text maxWidth) ->
     (measureText line <= maxWidth)%Q
     \/ ((maxWidth < measureText line)%Q /\ In line (words text)
         /\ occurs SP line = false /\ occurs LF line = false))
  /\ (forall currentLine word rest,
        (maxWidth < measureText (currentLine ++ " " ++ word)%string)%Q ->
        wrapWords measureText maxWidth currentLine (word :: rest)
        = currentLine :: wrapWords measureText maxWidth word rest).
Proof.
  split.
  - intros line Hin. unfold wrapText in Hin.
    apply in_flat_map in Hin as (p & Hp & Hline).
    destruct (wrapParagraph_lines _ _ _ _ Hline) as [Hw|[Hlt _]].
    + destruct (Qlt_le_dec maxWidth (measureText line)) as [Hgt|Hle]; auto.
      right. split; [exact Hgt|]. split.
      * unfold words. apply in_flat_map. now exists p.
      * split; [exact (proj1 (split_occurs SP SP p line Hw))|].
        apply (proj2 (split_occurs SP LF p line Hw)).
        exact (proj1 (split_occurs LF LF text p Hp)).
    + left. now apply Qlt_le_weak.
  - intros cur word rest H. apply wrapWords_flush. now apply Qlt_le_weak.
Qed.

(** C5: the wrap works paragraph by paragraph, the paragraphs being the
    parts between line breaks; every paragraph gives at least one line, the
    empty paragraph exactly the empty line; and "Hello", line break, "World"
    gives the two lines "Hello" and "World" whatever the bound. *)
Theorem wrapText_paragraphs
  (measureText : string -> Q) (text : string) (maxWidth : Q) :
  (forall a b,
     wrapText measureText (a ++ String LF b)%string maxWidth
     = wrapText measureText a maxWidth ++ wrapText measureText b maxWidth)
  /\ (forall paragraph,
        (1 <= List.length (wrapParagraph measureText maxWidth paragraph))%nat)
  /\ wrapParagraph measureText maxWidth ""%string = [""%string]
  /\ (List.length (Str.split LF text)
      <= List.length (wrapText measureText text maxWidth))%nat
  /\ wrapText measureText ("Hello" ++ String LF "World")%string maxWidth
     = ["Hello"%string; "World"%string].
Proof.
  assert (Hpar : forall p,
    (1 <= List.length (wrapParagraph measureText maxWidth p))%nat)
    by (intros p; apply wrapWords_nonempty).
  repeat split; auto.
  - intros a b. unfold wrapText. now rewrite split_app, flat_map_app.
  - unfold wrapText.
    induction (Str.split LF text) as [|p ps IH]; simpl; auto.
    rewrite length_app. specialize (Hpar p). lia.
Qed.

(** C10: the wrap preserves words: the lines of a paragraph, split on single
    spaces and concatenated in order, give the words of the paragraph, and
    so for the whole text. *)
Theorem wrapText_preserves_words
  (measureText : string -> Q) (text : string) (maxWidth : Q) :
  (forall paragraph,
     flat_map (Str.split SP) (wrapParagraph measureText maxWidth paragraph)
     = Str.split SP paragraph)
  /\ flat_map (Str.split SP) (wrapText measureText text maxWidth)
     = words text.
Proof.
  split; [intros p; apply wrapParagraph_words|].
  unfold wrapText, words.
  induction (Str.split LF text) as [|p ps IH]; simpl; auto.
  now rewrite flat_map_app, IH, wrapParagraph_words.
Qed.

(** ** Background box *)

Section BoxFacts.

Variable measureText : string -> Q.

Lemma maxLineWidth_from (lines : list string) (a : Q) :
  let r := fold_left
             (fun acc line =>
                let m := measureText line in if Qltb acc m then m else acc)
             lines a in
  (a <= r)%Q
  /\ (forall l, In l lines -> (measureText l <= r)%Q)
  /\ (r = a \/ exists l, In l lines /\ r = measureText l).
Proof.
  revert a. induction lines as [|x lines IH]; simpl; intros a.
  - repeat split; auto. apply Qle_refl. contradiction.
  - destruct (Qltb a (measureText x)) eqn:E.
    + apply Qltb_spec in E.
      destruct (IH (measureText x)) as (H1 & H2 & H3).
      repeat split.
      * apply Qle_trans with (measureText x); auto. now apply Qlt_le_weak.
      * intros l [<-|Hl]; auto.
      * right. destruct H3 as [H3|(l & Hl & H3)]; eauto.
    + assert (Hle : (measureText x <= a)%Q).
      { apply Qnot_lt_le. intros H. apply Qltb_spec in H. congruence. }
      destruct (IH a) as (H1 & H2 & H3). repeat split; auto.
      * intros l [<-|Hl]; auto. now apply Qle_trans with a.
      * destruct H3 as [H3|(l & Hl & H3)]; eauto.
Qed.

(** With non-negative widths, the accumulated maximum is the width of a
    widest line. *)
Lemma maxLineWidth_widest (lines : list string) :
  (forall s, (0 <= measureText s)%Q) -> lines <> [] ->
  exists widest,
    In widest lines
    /\ (forall l, In l lines -> (measureText l <= measureText widest)%Q)
    /\ (maxLineWidth measureText lines == measureText widest)%Q.
Proof.
  intros Hpos Hne. unfold maxLineWidth.
  pose proof (maxLineWidth_from lines 0) as H. cbv zeta in H.
  match type of H with
  | (_ <= ?r)%Q /\ _ => generalize dependent r
  end.
  intros r (H1 & H2 & [->|(l & Hl & ->)]).
  - destruct lines as [|l lines]; [contradiction|].
    exists l. split; [now left|].
    assert (Hl : (measureText l == 0)%Q).
    { apply Qle_antisym; auto. apply H2. now left. }
    split.
    + intros l' Hl'. rewrite Hl. now apply H2.
    + now rewrite Hl.
  - exists l. repeat split; auto.
Qed.

Lemma wrapText_nonempty (text : string) (maxWidth : Q) :
  wrapText measureText text maxWidth <> [].
Proof.
  unfold wrapText. pose proof (split_nonempty LF text) as Hne.
  destruct (Str.split LF text) as [|p ps]; [contradiction|]. simpl.
  pose proof (wrapWords_nonempty measureText maxWidth
                (tl (Str.split SP p)) (hd EmptyString (Str.split SP p))) as H.
  unfold wrapParagraph.
  destruct (wrapWords _ _ _ _); simpl in *; [lia | discriminate].
Qed.

End BoxFacts.

(** C6: the background box of a subtitle.  Its height is the number of lines
    times the line height plus twice 0.3 of the font size, whatever the lines
    say; its width is the width of the widest line plus twice 0.6 of the font
    size; it is centred on the anchor x; its bottom is at the anchor y plus
    0.2 of the font size; and no box is drawn for the background colour
    "transparent". *)
Theorem box_geometry
  (measureText : string -> Q) (text : string) (style : SubtitleStyle)
  (width height : Q) :
  (forall s, (0 <= measureText s)%Q) ->
  let fontSize := (fontSize style * (height / 600))%Q in
  let lineHeight := (fontSize * (125 # 100))%Q in
  let x := (width / 2)%Q in
  let y := (height * (1 - position style / 100))%Q in
  let lines := wrapText measureText text (width * (8 # 10))%Q in
  (backgroundColor style = "transparent"%string ->
     drawSubtitleOnCanvas measureText text style width height = None)
  /\ (backgroundColor style <> "transparent"%string ->
      exists b,
        drawSubtitleOnCanvas measureText text style width height = Some b
        /\ (boxHeight b ==
              inject_Z (Z.of_nat (List.length lines)) * lineHeight
              + 2 * (fontSize * (3 # 10)))%Q
        /\ (exists widest,
              In widest lines
              /\ (forall l, In l lines ->
                    (measureText l <= measureText widest)%Q)
              /\ (boxWidth b ==
                    measureText widest + 2 * (fontSize * (6 # 10)))%Q)
        /\ (boxX b + boxWidth b / 2 == x)%Q
        /\ (boxTop b + boxHeight b == y + fontSize * (2 # 10))%Q)
  /\ (forall others,
        List.length others = List.length lines ->
        boxHeight (boxOf measureText others x y lineHeight fontSize)
        = boxHeight (boxOf measureText lines x y lineHeight fontSize)).
Proof.
  intros Hpos fs lineHeight x y lines. unfold drawSubtitleOnCanvas.
  fold fs lineHeight x y lines. repeat split.
  - intros ->. reflexivity.
  - intros Hbg. apply String.eqb_neq in Hbg. rewrite Hbg.
    eexists. split; [reflexivity|]. simpl. repeat split.
    + ring.
    + destruct (maxLineWidth_widest measureText lines Hpos
                  (wrapText_nonempty measureText text _))
        as (widest & Hin & Hmax & Heq).
      exists widest. repeat split; auto. rewrite Heq. ring.
    + field.
    + ring.
  - intros others Hlen. simpl. now rewrite Hlen.
Qed.

Lemma length_nonneg (s : string) :
  (0 <= inject_Z (Z.of_nat (String.length s)))%Q.
Proof. change 0%Q with (inject_Z 0). rewrite <- Zle_Qle. lia. Qed.

Lemma box_geometry_witness :
  exists b,
    drawSubtitleOnCanvas
      (fun s => inject_Z (Z.of_nat (String.length s)))
      ("Hello" ++ String LF "World")%string
      {| fontSize := 24; fontFamily := "Inter"; color := "#ffffff";
         backgroundColor := "#000000"; textShadow := "none";
         position := 10 |}
      1280 720
    = Some b
    /\ (boxHeight b == 8928 # 100)%Q.
Proof.
  destruct (proj1 (proj2 (box_geometry
                   (fun s => inject_Z (Z.of_nat (String.length s)))
                   ("Hello" ++ String LF "World")%string
                   {| fontSize := 24; fontFamily := "Inter";
                      color := "#ffffff"; backgroundColor := "#000000";
                      textShadow := "none"; position := 10 |}
                   1280 720
                   length_nonneg))
              ltac:(discriminate))
    as (b & E & Hh & _).
  exists b. split; [exact E|]. rewrite Hh. reflexivity.
Defined.


(** ** Decimal digits *)

Section DigitFacts.

Local Open Scope string_scope.
Local Open Scope N_scope.

Lemma digitVal_digit (d : N) : d < 10 -> Str.digitVal (Str.digit d) = Some d.
Proof.
  intros H.
  assert (C : d = 0 \/ d = 1 \/ d = 2 \/ d = 3 \/ d = 4 \/ d = 5 \/ d = 6
              \/ d = 7 \/ d = 8 \/ d = 9) by lia.
  repeat (destruct C as [->|C]; [reflexivity|]). now subst.
Qed.

Lemma allDigits_app (a b : string) :
  allDigits (a ++ b) = allDigits a && allDigits b.
Proof.
  induction a as [|c a IH]; simpl; auto. now destruct (Str.digitVal c).
Qed.

Lemma allDigits_repeat (n : nat) : allDigits (Str.repeat "0" n) = true.
Proof. induction n; simpl; auto. Qed.

Lemma digits_app (f : nat) (n : N) (acc : string) :
  Str.digits f n acc = Str.digits f n "" ++ acc.
Proof.
  revert n acc. induction f as [|f IH]; simpl; intros n acc; auto.
  destruct (n / 10 =? 0); auto.
  rewrite (IH _ (String _ acc)), (IH _ (String _ "")), append_assoc.
  reflexivity.
Qed.

Lemma allDigits_digits (f : nat) (n : N) :
  allDigits (Str.digits f n "") = true.
Proof.
  revert n. induction f as [|f IH]; simpl; intros n; auto.
  assert (Hd : allDigits (String (Str.digit (n mod 10)) "") = true).
  { simpl. rewrite digitVal_digit; auto. apply N.mod_lt. discriminate. }
  destruct (n / 10 =? 0); auto.
  rewrite digits_app, allDigits_app, IH. exact Hd.
Qed.

Lemma digits_nonempty (f : nat) (n : N) : Str.digits (S f) n "" <> "".
Proof.
  simpl. destruct (n / 10 =? 0); [discriminate|].
  rewrite digits_app. destruct (Str.digits f (n / 10) ""); discriminate.
Qed.

Lemma horner_app (a : N) (s t : string) :
  allDigits s = true -> horner a (s ++ t) = horner (horner a s) t.
Proof.
  revert a. induction s as [|c s IH]; simpl; intros a H; auto.
  destruct (Str.digitVal c); [auto | discriminate].
Qed.

Lemma horner_zeros (n : nat) : horner 0 (Str.repeat "0" n) = 0.
Proof. induction n; simpl; auto. Qed.

Lemma horner_digits (f : nat) (n : N) :
  n < 2 ^ N.of_nat f -> horner 0 (Str.digits f n "") = n.
Proof.
  revert n. induction f as [|f IH]; intros n Hn.
  - simpl in *. lia.
  - assert (Hm : n mod 10 < 10) by (apply N.mod_lt; discriminate).
    simpl. destruct (n / 10 =? 0) eqn:E.
    + apply N.eqb_eq in E. cbn [horner].
      rewrite digitVal_digit by exact Hm. cbn [horner].
      pose proof (N.Div0.div_mod n 10). lia.
    + apply N.eqb_neq in E.
      rewrite digits_app, horner_app by apply allDigits_digits.
      rewrite IH.
      * cbn [horner]. rewrite digitVal_digit by exact Hm. cbn [horner].
        pose proof (N.Div0.div_mod n 10). lia.
      * rewrite Nat2N.inj_succ, N.pow_succ_r' in Hn.
        apply N.Div0.div_lt_upper_bound. lia.
Qed.

Lemma horner_N_toString (n : N) : horner 0 (Str.N_toString n) = n.
Proof.
  unfold Str.N_toString. apply horner_digits.
  rewrite Nat2N.inj_succ, N2Nat.id.
  destruct n as [|p]; [reflexivity|].
  apply N.log2_spec. reflexivity.
Qed.

Lemma parseDigits_Some (s : string) (a : N) :
  Str.parseDigits s (Some a) = Some (horner a s).
Proof.
  revert a. induction s as [|c s IH]; simpl; intros a; auto.
  destruct (Str.digitVal c); auto.
Qed.

Lemma parseDigits_None (c : ascii) (s : string) (d : N) :
  Str.digitVal c = Some d ->
  Str.parseDigits (String c s) None = Some (horner 0 (String c s)).
Proof. intros H. simpl. rewrite H. apply parseDigits_Some. Qed.

(** A string that starts with neither white space nor a sign is parsed
    from its first character. *)
Lemma parseInt_unsigned (c : ascii) (s : string) :
  Str.isWhite c = false -> c <> "-"%char -> c <> "+"%char ->
  Str.parseInt (String c s)
  = match Str.parseDigits (String c s) None with
    | None => INaN
    | Some n =>
        if (n <? Str.overflow)%N then IInt (Z.of_N n) else IInf false
    end.
Proof.
  intros Hw Hm Hp. unfold Str.parseInt. cbn [Str.skipWhite]. rewrite Hw.
  destruct c as [[] [] [] [] [] [] [] []]; try reflexivity; congruence.
Qed.

Lemma parseInt_digit_first (c : ascii) (s : string) (d : N) :
  Str.digitVal c = Some d ->
  horner 0 (String c s) < Str.overflow ->
  Str.parseInt (String c s) = IInt (Z.of_N (horner 0 (String c s))).
Proof.
  intros H Hsmall. rewrite parseInt_unsigned.
  - rewrite (parseDigits_None c s d H).
    apply N.ltb_lt in Hsmall. now rewrite Hsmall.
  - destruct c as [[] [] [] [] [] [] [] []]; try discriminate H; reflexivity.
  - intros ->. discriminate H.
  - intros ->. discriminate H.
Qed.

(** Digit strings contain no separator. *)
Lemma allDigits_occurs (c : ascii) (s : string) :
  Str.digitVal c = None -> allDigits s = true -> occurs c s = false.
Proof.
  intros Hc. induction s as [|a s IH]; simpl; auto.
  destruct (Str.digitVal a) eqn:Ea; [|discriminate].
  intros H. rewrite (IH H), orb_false_r.
  apply Ascii.eqb_neq. congruence.
Qed.

End DigitFacts.

(** ** Formatted fields and their parsing *)

Section FieldFacts.

Local Open Scope string_scope.

Lemma replace_app (c d : ascii) (a b : string) :
  occurs c a = false ->
  Str.replace c d (a ++ String c b) = a ++ String d b.
Proof.
  induction a as [|x a IH]; simpl.
  - now rewrite Ascii.eqb_refl.
  - intros H. apply orb_false_iff in H as [Hx Ha]. now rewrite Hx, IH.
Qed.

Lemma nonempty_digits_first (s : string) :
  allDigits s = true -> s <> "" ->
  exists c r d, s = String c r /\ Str.digitVal c = Some d.
Proof.
  destruct s as [|c r]; [congruence|]. simpl. intros H _.
  destruct (Str.digitVal c) as [d|] eqn:E; [|discriminate].
  now exists c, r, d.
Qed.

(** A non-negative integer, padded with zeros, is a digit string that
    [parseInt] reads back. *)
Lemma pad_digits (z : Z) (k : nat) :
  0 <= z < Z.of_N Str.overflow ->
  allDigits (pad (IInt z) k) = true
  /\ pad (IInt z) k <> ""
  /\ Str.parseInt (pad (IInt z) k) = IInt z.
Proof.
  intros Hz. unfold pad, Str.toString, Str.padStart.
  destruct (Z.ltb_spec z 0) as [Hneg|_]; [lia|].
  set (s := Str.N_toString (Z.to_N z)).
  set (zeros := Str.repeat "0" (k - String.length s)).
  assert (Hs : allDigits s = true) by apply allDigits_digits.
  assert (Hne : s <> "") by apply digits_nonempty.
  assert (Hall : allDigits (zeros ++ s) = true).
  { rewrite allDigits_app, Hs. unfold zeros. now rewrite allDigits_repeat. }
  assert (Hne' : zeros ++ s <> "").
  { destruct zeros; simpl; [exact Hne | discriminate]. }
  repeat split; auto.
  assert (Hval : horner 0 (zeros ++ s) = Z.to_N z).
  { rewrite horner_app by apply allDigits_repeat.
    unfold zeros. rewrite horner_zeros. unfold s.
    apply horner_N_toString. }
  destruct (nonempty_digits_first _ Hall Hne') as (c & r & d & E & Hd).
  rewrite E, (parseInt_digit_first c r d Hd), <- E.
  - rewrite Hval. f_equal. lia.
  - rewrite <- E, Hval. lia.
Qed.

(** The fields of a timecode are far below the largest double. *)
Lemma field_below_overflow (z : Z) :
  0 <= z <= 1000 -> 0 <= z < Z.of_N Str.overflow.
Proof.
  intros Hz.
  assert (H : 1000 < Z.of_N Str.overflow) by (vm_compute; reflexivity).
  lia.
Qed.

(** [parseSRTTime] on four digit fields in the layout of [formatSRTTime]. *)
Lemma parseSRTTime_fields (A B C D : string) :
  allDigits A = true -> allDigits B = true ->
  allDigits C = true -> allDigits D = true ->
  A <> "" -> D <> "" ->
  parseSRTTime (A ++ ":" ++ B ++ ":" ++ C ++ "," ++ D)
  = add (add (add (mul (Str.parseInt A) (num 3600))
                  (mul (Str.parseInt B) (num 60)))
             (Str.parseInt C))
        (div (Str.parseInt D) (num 1000)).
Proof.
  intros HA HB HC HD HAne HDne.
  assert (Hcomma : forall X, allDigits X = true -> occurs "," X = false)
    by (intros X; now apply allDigits_occurs).
  assert (Hcolon : forall X, allDigits X = true -> occurs ":" X = false)
    by (intros X; now apply allDigits_occurs).
  assert (Hdot : forall X, allDigits X = true -> occurs "." X = false)
    by (intros X; now apply allDigits_occurs).
  assert (Hassoc : forall sep : ascii,
            A ++ String ":" (B ++ String ":" (C ++ String sep D))
            = (A ++ String ":" (B ++ String ":" C)) ++ String sep D).
  { intros sep. rewrite append_assoc. simpl. now rewrite append_assoc. }
  assert (Hrep : Str.replace "," "." (A ++ ":" ++ B ++ ":" ++ C ++ "," ++ D)
                 = A ++ ":" ++ B ++ ":" ++ C ++ "." ++ D).
  { change (A ++ ":" ++ B ++ ":" ++ C ++ "," ++ D)
      with (A ++ String ":" (B ++ String ":" (C ++ String "," D))).
    rewrite Hassoc, replace_app.
    - symmetry. apply Hassoc.
    - rewrite occurs_app. simpl. rewrite occurs_app. simpl.
      now rewrite (Hcomma A), (Hcomma B), (Hcomma C). }
  assert (Hsplit : Str.split ":" (A ++ ":" ++ B ++ ":" ++ C ++ "." ++ D)
                   = [A; B; C ++ "." ++ D]).
  { change (A ++ ":" ++ B ++ ":" ++ C ++ "." ++ D)
      with (A ++ String ":" (B ++ String ":" (C ++ String "." D))).
    rewrite !split_app, (split_id ":" A), (split_id ":" B) by auto.
    rewrite split_id; [reflexivity|].
    rewrite occurs_app. simpl. now rewrite (Hcolon C), (Hcolon D). }
  assert (Hsec : Str.split "." (C ++ "." ++ D) = [C; D]).
  { change (C ++ "." ++ D) with (C ++ String "." D).
    now rewrite split_app, (split_id "." C), (split_id "." D) by auto. }
  unfold parseSRTTime. rewrite Hrep, Hsplit, Hsec.
  destruct A as [|a A']; [congruence|].
  destruct D as [|d D']; [congruence|]. reflexivity.
Qed.

End FieldFacts.

(** ** The arithmetic of [formatSRTTime] *)

Section FormatFacts.

Local Open Scope Q_scope.

Lemma inject_Z_nonzero (k : Z) : k <> 0%Z -> ~ inject_Z k == 0.
Proof.
  intros Hk E. apply Hk. unfold Qeq in E. simpl in E. lia.
Qed.

Lemma Qfloor_div (x : Q) (k : Z) :
  (0 < k)%Z -> Qfloor (x / inject_Z k) = (Qfloor x / k)%Z.
Proof.
  intros Hk.
  assert (HkQ : 0 < inject_Z k).
  { change 0 with (inject_Z 0). now rewrite <- Zlt_Qlt. }
  pose proof (Qfloor_le x) as Hlo. pose proof (Qlt_floor x) as Hhi.
  set (n := Qfloor x) in *.
  apply Qfloor_unique.
  - apply Qle_shift_div_l; auto.
    rewrite <- inject_Z_mult.
    apply Qle_trans with (inject_Z n); auto.
    rewrite <- Zle_Qle. rewrite Z.mul_comm. apply Z.mul_div_le. exact Hk.
  - apply Qlt_shift_div_r; auto.
    rewrite <- inject_Z_mult.
    apply Qlt_le_trans with (inject_Z (n + 1)); auto.
    rewrite <- Zle_Qle.
    pose proof (Z.mul_succ_div_gt n k Hk). lia.
Qed.

Lemma Qfloor_sub_Z (x : Q) (m : Z) :
  Qfloor (x - inject_Z m) = (Qfloor x - m)%Z.
Proof.
  pose proof (Qfloor_le x) as Hlo. pose proof (Qlt_floor x) as Hhi.
  apply Qfloor_unique.
  - unfold Z.sub. rewrite inject_Z_plus, inject_Z_opp. lra.
  - replace (Qfloor x - m + 1)%Z with ((Qfloor x + 1) + - m)%Z by lia.
    rewrite inject_Z_plus, inject_Z_opp. lra.
Qed.

Lemma Qtrunc_nonneg (q : Q) : 0 <= q -> Qtrunc q = Qfloor q.
Proof.
  intros H. unfold Qtrunc, Qnegb.
  destruct (Qltb q 0) eqn:E; auto.
  apply Qltb_spec in E. exfalso. now apply (Qlt_not_le _ _ E).
Qed.

Lemma div_Fin (x : Q) (k : Z) :
  k <> 0%Z -> div (Fin x) (num k) = Fin (Qred (x / inject_Z k)).
Proof.
  intros Hk. unfold div, num.
  now rewrite (Qzerob_false _ (inject_Z_nonzero k Hk)).
Qed.

Lemma rem_Fin (x : Q) (k : Z) :
  0 <= x -> (0 < k)%Z ->
  rem (Fin x) (num k)
  = Fin (Qred (x - inject_Z k * inject_Z (Qfloor x / k))).
Proof.
  intros Hx Hk. unfold rem, num.
  rewrite (Qzerob_false _ (inject_Z_nonzero k ltac:(lia))).
  assert (Hq : 0 <= x / inject_Z k).
  { apply Qle_shift_div_l.
    - change 0 with (inject_Z 0). now rewrite <- Zlt_Qlt.
    - now rewrite Qmult_0_l. }
  now rewrite (Qtrunc_nonneg _ Hq), (Qfloor_div x k Hk).
Qed.

(** The four fields [formatSRTTime] prints for a non-negative [x]. *)
Lemma format_fields (x : Q) :
  0 <= x ->
  Math_floor (div (Fin x) (num 3600)) = IInt (Qfloor x / 3600)
  /\ Math_floor (div (rem (Fin x) (num 3600)) (num 60))
     = IInt ((Qfloor x - 3600 * (Qfloor x / 3600)) / 60)
  /\ Math_floor (rem (Fin x) (num 60)) = IInt (Qfloor x - 60 * (Qfloor x / 60))
  /\ Math_round (mul (rem (Fin x) (num 1)) (num 1000))
     = IInt (Qround ((x - inject_Z (Qfloor x)) * 1000)).
Proof.
  intros Hx. repeat split.
  - rewrite div_Fin by discriminate. cbn [Math_floor].
    now rewrite Qred_correct, Qfloor_div.
  - rewrite rem_Fin, div_Fin by (auto; try reflexivity; discriminate).
    cbn [Math_floor]. rewrite !Qred_correct, Qfloor_div by reflexivity.
    rewrite <- inject_Z_mult, Qfloor_sub_Z. reflexivity.
  - rewrite rem_Fin by (auto; reflexivity). cbn [Math_floor].
    rewrite Qred_correct, <- inject_Z_mult, Qfloor_sub_Z. reflexivity.
  - rewrite rem_Fin by (auto; reflexivity). unfold mul, num.
    cbn [Math_round]. unfold Qround. rewrite !Qred_correct, Z.div_1_r.
    f_equal. apply Qfloor_comp.
    change (inject_Z 1) with 1. change (inject_Z 1000) with 1000. ring.
Qed.

End FormatFacts.

(** C4 (as stated): garbage with two or three colon-separated fields does
    not degrade to 0; the result is NaN. *)
Lemma parseSRTTime_garbage_NaN :
  parseSRTTime "ab:cd" = NaN
  /\ parseSRTTime "12:xx:05,000" = NaN
  /\ NaN <> num 0.
Proof. repeat split. discriminate. Qed.

Section NaNFacts.

Lemma add_NaN_r (a : number) : add a NaN = NaN.
Proof. now destruct a as [|[]|q]. Qed.

Lemma mul_NaN_l (a : number) : mul NaN a = NaN.
Proof. reflexivity. Qed.

(** The sum at the end of [parseSRTTime] is NaN as soon as one of the four
    fields is. *)
Lemma timecode_sum_NaN (h m s ms : integral) :
  h = INaN \/ m = INaN \/ s = INaN \/ ms = INaN ->
  add (add (add (mul h (num 3600)) (mul m (num 60))) s)
      (div ms (num 1000)) = NaN.
Proof.
  intros [-> | [-> | [-> | ->]]]; cbn [of_integral mul div];
    rewrite ?add_NaN_r; reflexivity.
Qed.

End NaNFacts.

(** C4 (amended): [parseSRTTime] is a total function to numbers.  The empty
    string gives 0, and so does every input that, once its first comma is a
    dot, does not consist of exactly two or three colon-separated fields.
    An input with two or three such fields gives NaN as soon as one of the
    strings handed to [parseInt] has no leading integer. *)
Theorem parseSRTTime_total (timeString : string) :
  parseSRTTime "" = num 0
  /\ (forall n,
        List.length (Str.split ":" (Str.replace "," "." timeString)) = n ->
        n <> 2%nat -> n <> 3%nat -> parseSRTTime timeString = num 0)
  /\ (timeString <> ""%string ->
      (exists field,
          In field (fieldsRead timeString) /\ Str.parseInt field = INaN) ->
      parseSRTTime timeString = NaN).
Proof.
  split; [reflexivity|]. split.
  - intros n Hlen H2 H3. unfold parseSRTTime.
    destruct timeString as [|c s]; [reflexivity|].
    destruct (Str.split ":" (Str.replace "," "." (String c s)))
      as [|p0 [|p1 [|p2 [|p3 rest]]]]; simpl in Hlen; subst n;
      try reflexivity; contradiction.
  - intros Hne (field & Hin & Hnan). unfold parseSRTTime, fieldsRead in *.
    destruct timeString as [|c s]; [contradiction|].
    destruct (Str.split ":" (Str.replace "," "." (String c s)))
      as [|p0 [|p1 [|p2 [|p3 rest]]]]; try contradiction.
    + pose proof (split_nonempty "." p1) as Hsp.
      destruct (Str.split "." p1) as [|s0 sp]; [contradiction|].
      cbn [Str.parseIntAt nth_error hd] in *.
      destruct Hin as [<-|[<-|[<-|[]]]]; rewrite Hnan;
        cbn [of_integral mul div]; rewrite ?add_NaN_r; reflexivity.
    + pose proof (split_nonempty "." p2) as Hsp.
      destruct (Str.split "." p2) as [|s0 sp]; [contradiction|].
      cbn [Str.parseIntAt nth_error hd] in *.
      destruct Hin as [<-|[<-|[<-|[<-|[]]]]]; rewrite Hnan;
        cbn [of_integral mul div]; rewrite ?add_NaN_r; reflexivity.
Qed.

(** What [formatSRTTime] prints for a non-negative [x]: the hours are the
    floor of [x / 3600], unbounded; minutes and seconds are between 0 and 59;
    the milliseconds are the fraction times 1000, rounded, between 0 and
    1000 inclusive. *)
Lemma formatSRTTime_fields (x : Q) :
  (0 <= x)%Q ->
  exists H M S MS,
    formatSRTTime (Fin x)
    = (pad (IInt H) 2 ++ ":" ++ pad (IInt M) 2 ++ ":" ++ pad (IInt S) 2
       ++ "," ++ pad (IInt MS) 3)%string
    /\ H = Qfloor x / 3600 /\ 0 <= H
    /\ M = Qfloor x mod 3600 / 60 /\ 0 <= M <= 59
    /\ S = Qfloor x mod 60 /\ 0 <= S <= 59
    /\ MS = Qround ((x - inject_Z (Qfloor x)) * 1000) /\ 0 <= MS <= 1000.
Proof.
  intros Hx.
  destruct (format_fields x Hx) as (Hh & Hm & Hs & Hms).
  pose proof (Qfloor_le x) as Hlo. pose proof (Qlt_floor x) as Hhi.
  assert (Hn : 0 <= Qfloor x).
  { rewrite <- (Qfloor_Z 0). now apply Qfloor_resp_le. }
  rewrite inject_Z_plus in Hhi. change (inject_Z 1) with 1%Q in Hhi.
  exists (Qfloor x / 3600), (Qfloor x mod 3600 / 60), (Qfloor x mod 60),
    (Qround ((x - inject_Z (Qfloor x)) * 1000)).
  split.
  - unfold formatSRTTime. cbv zeta. rewrite Hh, Hm, Hs, Hms.
    rewrite (Z.mod_eq (Qfloor x) 3600), (Z.mod_eq (Qfloor x) 60)
      by discriminate.
    reflexivity.
  - pose proof (Z.mod_pos_bound (Qfloor x) 3600 eq_refl) as B1.
    pose proof (Z.mod_pos_bound (Qfloor x) 60 eq_refl) as B2.
    assert (0 <= Qfloor x / 3600) by (apply Z.div_pos; lia).
    assert (0 <= Qfloor x mod 3600 / 60) by (apply Z.div_pos; lia).
    assert (Qfloor x mod 3600 / 60 < 60)
      by (apply Z.div_lt_upper_bound; lia).
    assert (0 <= Qround ((x - inject_Z (Qfloor x)) * 1000)).
    { unfold Qround. rewrite <- (Qfloor_Z 0). apply Qfloor_resp_le.
      change (inject_Z 0) with 0%Q. lra. }
    assert (Qround ((x - inject_Z (Qfloor x)) * 1000) <= 1000).
    { unfold Qround.
      pose proof (Qfloor_le ((x - inject_Z (Qfloor x)) * 1000 + (1 # 2))).
      apply Z.lt_succ_r. rewrite Zlt_Qlt.
      change (inject_Z (Z.succ 1000)) with 1001%Q. lra. }
    repeat split; lia.
Qed.

(** C8 (the code at the failing input 0.9996): the millisecond field has
    four digits. *)
Theorem formatSRTTime_millis_overflow :
  formatSRTTime (Fin (9996 # 10000)) = "00:00:00,1000"%string
  /\ formatSRTTime (Fin (19996 # 10000)) = "00:00:01,1000"%string.
Proof. split; reflexivity. Qed.

(** C1: for every [x] from 0 to 359999.999 seconds, parsing the formatted
    timecode gives a finite number within one millisecond of [x]. *)
Theorem timecode_roundtrip (x : Q) :
  (0 <= x)%Q -> (x <= 359999999 # 1000)%Q ->
  exists y,
    parseSRTTime (formatSRTTime (Fin x)) = Fin y
    /\ (Qabs (y - x) <= 1 # 1000)%Q.
Proof.
  intros Hx Hmax.
  destruct (format_fields x Hx) as (Hh & Hm & Hs & Hms).
  unfold formatSRTTime. cbv zeta. rewrite Hh, Hm, Hs, Hms.
  pose proof (Qfloor_le x) as Hlo. pose proof (Qlt_floor x) as Hhi.
  assert (Hn : 0 <= Qfloor x).
  { rewrite <- (Qfloor_Z 0). now apply Qfloor_resp_le. }
  assert (Hn' : Qfloor x <= 359999).
  { apply Z.lt_succ_r. rewrite Zlt_Qlt.
    apply Qle_lt_trans with x; [apply Qfloor_le|].
    apply Qle_lt_trans with (359999999 # 1000); [exact Hmax|reflexivity]. }
  set (n := Qfloor x) in *.
  set (H := n / 3600). set (M := (n - 3600 * H) / 60).
  set (S := n - 60 * (n / 60)).
  set (MS := Qround ((x - inject_Z n) * 1000)).
  assert (HH : 0 <= H <= 1000).
  { split; [apply Z.div_pos; lia|].
    apply Z.lt_le_incl, Z.div_lt_upper_bound; lia. }
  assert (HM : 0 <= M <= 1000).
  { pose proof (Z.mul_div_le n 3600). pose proof (Z.mul_succ_div_gt n 3600).
    split; [apply Z.div_pos; unfold H; lia|].
    apply Z.lt_le_incl, Z.div_lt_upper_bound; unfold H; lia. }
  assert (HS : 0 <= S <= 1000).
  { unfold S. pose proof (Z.mul_div_le n 60).
    pose proof (Z.mul_succ_div_gt n 60). lia. }
  pose proof (Qfloor_le ((x - inject_Z n) * 1000 + (1 # 2))) as Hmlo.
  pose proof (Qlt_floor ((x - inject_Z n) * 1000 + (1 # 2))) as Hmhi.
  fold (Qround ((x - inject_Z n) * 1000)) in Hmlo, Hmhi. fold MS in Hmlo, Hmhi.
  rewrite inject_Z_plus in Hhi, Hmhi.
  change (inject_Z 1) with 1%Q in Hhi, Hmhi.
  assert (HMS : 0 <= MS <= 1000).
  { split.
    - unfold MS, Qround. rewrite <- (Qfloor_Z 0). apply Qfloor_resp_le.
      change (inject_Z 0) with 0%Q. lra.
    - apply Z.lt_succ_r. rewrite Zlt_Qlt.
      apply Qle_lt_trans with ((x - inject_Z n) * 1000 + (1 # 2))%Q;
        [exact Hmlo|].
      change (inject_Z (Z.succ 1000)) with 1001%Q. lra. }
  destruct (pad_digits H 2 (field_below_overflow H HH)) as (dA & neA & pA).
  destruct (pad_digits M 2 (field_below_overflow M HM)) as (dB & _ & pB).
  destruct (pad_digits S 2 (field_below_overflow S HS)) as (dC & _ & pC).
  destruct (pad_digits MS 3 (field_below_overflow MS HMS))
    as (dD & neD & pD).
  rewrite parseSRTTime_fields by assumption.
  rewrite pA, pB, pC, pD. cbn [of_integral].
  rewrite div_Fin by discriminate. unfold mul, add, num.
  eexists. split; [reflexivity|].
  assert (E : H * 3600 + M * 60 + S = n).
  { unfold M, S, H.
    pose proof (Z.div_mod n 3600). pose proof (Z.mod_pos_bound n 3600).
    pose proof (Z.div_mod (n - 3600 * (n / 3600)) 60).
    pose proof (Z.mod_pos_bound (n - 3600 * (n / 3600)) 60).
    pose proof (Z.div_mod n 60). pose proof (Z.mod_pos_bound n 60). lia. }
  assert (EQ : (inject_Z H * 3600 + inject_Z M * 60 + inject_Z S
                == inject_Z n)%Q).
  { rewrite <- E, !inject_Z_plus, !inject_Z_mult. reflexivity. }
  rewrite !Qred_correct.
  change (inject_Z 3600) with 3600%Q. change (inject_Z 60) with 60%Q.
  change (inject_Z 1000) with 1000%Q.
  apply Qabs_Qle_condition.
  clearbody H M S MS n. clear - EQ Hlo Hhi Hmlo Hmhi.
  revert EQ Hlo Hhi Hmlo Hmhi.
  generalize (inject_Z H), (inject_Z M), (inject_Z S), (inject_Z MS),
    (inject_Z n).
  intros qh qm qs qms qn EQ Hlo Hhi Hmlo Hmhi.
  unfold Qdiv. change (/ 1000)%Q with (1 # 1000)%Q. split; lra.
Qed.

Lemma timecode_roundtrip_witness :
  exists y,
    parseSRTTime (formatSRTTime (Fin (19996 # 10000))) = Fin y
    /\ (Qabs (y - (19996 # 10000)) <= 1 # 1000)%Q.
Proof.
  apply (timecode_roundtrip (19996 # 10000)); discriminate.
Defined.

(** * Further properties *)

(** ** Progress over a run *)

(** The progress value never decreases as the playback time advances. *)
Theorem progress_monotone (t1 t2 d : Q) :
  (0 < d)%Q -> (t1 <= t2)%Q ->
  number_le (progress (Fin t1) (Fin d)) (progress (Fin t2) (Fin d)).
Proof.
  intros Hd Ht.
  assert (Hz : ~ (d == 0)%Q) by (intros E; rewrite E in Hd; discriminate).
  rewrite !progress_finite by exact Hz. unfold num. simpl.
  rewrite <- Zle_Qle. apply Z.min_le_compat_r.
  unfold Qround. apply Qfloor_resp_le.
  apply Qplus_le_l. apply Qmult_le_compat_r; [|discriminate].
  unfold Qdiv. apply Qmult_le_compat_r; auto.
  apply Qlt_le_weak. now apply Qinv_lt_0_compat.
Qed.

Lemma progress_monotone_witness :
  number_le (progress (Fin (1 # 1)) (Fin (3 # 1)))
            (progress (Fin (2 # 1)) (Fin (3 # 1))).
Proof.
  apply (progress_monotone (1 # 1) (2 # 1) (3 # 1)).
  - reflexivity.
  - discriminate.
Defined.

(** The progress is 0 at time 0 and exactly 100 from the end of the source
    on. *)
Theorem progress_ends (t d : Q) :
  (0 < d)%Q -> (d <= t)%Q ->
  progress (Fin 0) (Fin d) = num 0 /\ progress (Fin t) (Fin d) = num 100.
Proof.
  intros Hd Ht.
  assert (Hz : ~ (d == 0)%Q) by (intros E; rewrite E in Hd; discriminate).
  rewrite !progress_finite by exact Hz. split; f_equal.
  - assert (E : Qround (0 / d * 100) = 0).
    { unfold Qround. apply Qfloor_unique.
      - change (inject_Z 0) with 0%Q. unfold Qdiv. rewrite !Qmult_0_l.
        discriminate.
      - change (inject_Z (0 + 1)) with 1%Q. unfold Qdiv.
        rewrite !Qmult_0_l. reflexivity. }
    now rewrite E.
  - apply Z.min_r. unfold Qround. apply Qfloor_ge.
    assert (1 <= t / d)%Q.
    { apply Qle_shift_div_l; auto. now rewrite Qmult_1_l. }
    change (inject_Z 100) with 100%Q.
    revert H. generalize (t / d)%Q. intros r Hr. lra.
Qed.

Lemma progress_ends_witness :
  progress (Fin 0) (Fin (3 # 1)) = num 0
  /\ progress (Fin (4 # 1)) (Fin (3 # 1)) = num 100.
Proof.
  apply (progress_ends (4 # 1) (3 # 1)).
  - reflexivity.
  - discriminate.
Defined.

(** ** Timecodes: accepted shapes, display form, precision *)

Section TimecodeShapes.

Local Open Scope string_scope.

Lemma replace_none (c d : ascii) (s : string) :
  occurs c s = false -> Str.replace c d s = s.
Proof.
  induction s as [|a s IH]; simpl; auto.
  intros H. apply orb_false_iff in H as [Ha Hs]. now rewrite Ha, IH.
Qed.








End TimecodeShapes.

Section DisplayForm.

Local Open Scope string_scope.

Lemma occurs_repeat (c fill : ascii) (n : nat) :
  Ascii.eqb fill c = false -> occurs c (Str.repeat fill n) = false.
Proof. intros H. induction n; simpl; auto. now rewrite H. Qed.

Lemma pad_no_comma (n : integral) (size : nat) :
  occurs "," (pad n size) = false.
Proof.
  unfold pad, Str.padStart. rewrite occurs_app, occurs_repeat by reflexivity.
  destruct n as [|[]|z]; try reflexivity. unfold Str.toString.
  destruct (z <? 0)%Z; simpl;
    apply allDigits_occurs; try reflexivity; apply allDigits_digits.
Qed.

(** A string with a single comma parses like the string with that comma
    turned into a dot. *)
Lemma parseSRTTime_normalized (s : string) :
  occurs "," (Str.replace "," "." s) = false ->
  parseSRTTime (Str.replace "," "." s) = parseSRTTime s.
Proof.
  intros H. destruct s as [|c s]; [reflexivity|].
  unfold parseSRTTime at 2.
  destruct (Str.replace "," "." (String c s)) as [|c' s'] eqn:E.
  - simpl in E. destruct (Ascii.eqb c ","); discriminate.
  - unfold parseSRTTime. now rewrite (replace_none _ _ _ H).
Qed.

Lemma formatSRTTime_replace (totalSeconds : number) :
  occurs ","
    (Str.replace "," "." (formatSRTTime totalSeconds)) = false.
Proof.
  unfold formatSRTTime. cbv zeta.
  set (A := pad _ 2). set (B := pad _ 2). set (C := pad _ 2).
  set (D := pad _ 3).
  assert (HA : occurs "," A = false) by apply pad_no_comma.
  assert (HB : occurs "," B = false) by apply pad_no_comma.
  assert (HC : occurs "," C = false) by apply pad_no_comma.
  assert (HD : occurs "," D = false) by apply pad_no_comma.
  change (A ++ ":" ++ B ++ ":" ++ C ++ "," ++ D)
    with (A ++ String ":" (B ++ String ":" (C ++ String "," D))).
  assert (E : A ++ String ":" (B ++ String ":" (C ++ String "," D))
              = (A ++ String ":" (B ++ String ":" C)) ++ String "," D).
  { rewrite append_assoc. simpl. now rewrite append_assoc. }
  rewrite E, replace_app.
  - rewrite occurs_app. simpl. rewrite occurs_app. simpl.
    rewrite occurs_app. simpl. now rewrite HA, HB, HC, HD.
  - rewrite occurs_app. simpl. rewrite occurs_app. simpl.
    now rewrite HA, HB, HC.
Qed.

End DisplayForm.

(** The subtitle editor shows [formatSRTTime(t).replace(',', '.')]; for every
    number [t] that text parses to the same value as the timecode itself. *)
Theorem display_timecode_parses_alike (totalSeconds : number) :
  parseSRTTime (Str.replace "," "." (formatSRTTime totalSeconds))
  = parseSRTTime (formatSRTTime totalSeconds).
Proof.
  apply parseSRTTime_normalized, formatSRTTime_replace.
Qed.








(** ** Wrapped lines: rejoining, and where they are painted *)

Lemma join_split (sep : ascii) (s : string) :
  Array_join sep (Str.split sep s) = s.
Proof.
  induction s as [|c s IH]; simpl; auto.
  pose proof (split_nonempty sep s) as Hne.
  destruct (Ascii.eqb_spec c sep) as [->|Hc].
  - simpl. destruct (Str.split sep s); [contradiction|]. now rewrite IH.
  - destruct (Str.split sep s) as [|w ws]; [contradiction|].
    simpl in *. destruct ws; simpl; now rewrite <- IH.
Qed.

Lemma join_cons (sep : ascii) (x : string) (rest : list string) :
  rest <> [] ->
  Array_join sep (x :: rest) = (x ++ String sep (Array_join sep rest))%string.
Proof. destruct rest; [contradiction | reflexivity]. Qed.

Lemma wrapWords_not_nil
  (measureText : string -> Q) (maxWidth : Q) (ws : list string)
  (cur : string) :
  wrapWords measureText maxWidth cur ws <> [].
Proof.
  pose proof (wrapWords_nonempty measureText maxWidth ws cur) as H.
  destruct (wrapWords _ _ _ _); simpl in H; [lia | discriminate].
Qed.

Lemma wrapWords_join
  (measureText : string -> Q) (maxWidth : Q) (ws : list string)
  (cur : string) :
  Array_join SP (wrapWords measureText maxWidth cur ws)
  = Array_join SP (cur :: ws).
Proof.
  revert cur. induction ws as [|w ws IH]; intros cur; [reflexivity|].
  cbn [wrapWords].
  destruct (Qltb _ _).
  - rewrite IH. destruct ws as [|w' ws].
    + reflexivity.
    + rewrite !join_cons by discriminate. now rewrite append_assoc.
  - rewrite join_cons by apply wrapWords_not_nil.
    rewrite IH. now rewrite (join_cons SP cur) by discriminate.
Qed.

(** Wrapping only turns some spaces into line breaks: the lines of a
    paragraph joined with single spaces give the paragraph back, and the
    paragraphs so rebuilt, joined with line breaks, give the text back. *)
Theorem wrapText_rejoin
  (measureText : string -> Q) (text : string) (maxWidth : Q) :
  (forall paragraph,
     Array_join SP (wrapParagraph measureText maxWidth paragraph)
     = paragraph)
  /\ Array_join LF
       (map (fun p => Array_join SP (wrapParagraph measureText maxWidth p))
            (Str.split LF text))
     = text.
Proof.
  assert (H : forall p,
    Array_join SP (wrapParagraph measureText maxWidth p) = p).
  { intros p. unfold wrapParagraph.
    now rewrite wrapWords_join, hd_tl_split, join_split. }
  split; [exact H|].
  rewrite (map_ext _ (fun p => p) H), map_id. apply join_split.
Qed.

Section TextCalls.

Variable measureText : string -> Q.

Local Open Scope Q_scope.

Lemma fillTextFrom_nth (reversed : list string) (index k : nat)
  (x y lineHeight : Q) (line : string) :
  nth_error reversed k = Some line ->
  nth_error (fillTextFrom index reversed x y lineHeight) k
  = Some {| callText := line; callX := x;
            callY := y - inject_Z (Z.of_nat (index + k)) * lineHeight |}.
Proof.
  revert index k. induction reversed as [|l rest IH]; intros index k H.
  - destruct k; discriminate.
  - destruct k as [|k]; simpl in *.
    + injection H as ->. now rewrite Nat.add_0_r.
    + rewrite (IH (S index) k H).
      now replace (S index + k)%nat with (index + S k)%nat by lia.
Qed.

Lemma fillTextFrom_length (reversed : list string) (index : nat)
  (x y lineHeight : Q) :
  List.length (fillTextFrom index reversed x y lineHeight)
  = List.length reversed.
Proof.
  revert index. induction reversed; simpl; intros; auto.
Qed.

Lemma fillTextFrom_In (reversed : list string) (index : nat)
  (x y lineHeight : Q) (c : TextCall) :
  In c (fillTextFrom index reversed x y lineHeight) ->
  exists k,
    (index <= k < index + List.length reversed)%nat
    /\ In (callText c) reversed /\ callX c = x
    /\ callY c = y - inject_Z (Z.of_nat k) * lineHeight.
Proof.
  revert index. induction reversed as [|l rest IH]; simpl; intros index H.
  - contradiction.
  - destruct H as [<-|H].
    + exists index. simpl. repeat split; auto; lia.
    + destruct (IH _ H) as (k & Hk & Hin & Hx & Hy).
      exists k. repeat split; auto; lia.
Qed.

End TextCalls.

(** The lines are painted from the bottom up: there is one call per line,
    and call [k] paints line [n - 1 - k] of the [n] lines, centred on the
    anchor x, with its bottom [k] line heights above the anchor y; so the
    last line sits on the anchor and the order of the lines is kept. *)
Theorem fillTextCalls_positions
  (lines : list string) (x y lineHeight : Q) (k : nat) :
  List.length (fillTextCalls lines x y lineHeight) = List.length lines
  /\ ((k < List.length lines)%nat ->
      exists line,
        nth_error lines (List.length lines - 1 - k) = Some line
        /\ nth_error (fillTextCalls lines x y lineHeight) k
           = Some {| callText := line; callX := x;
                     callY := (y - inject_Z (Z.of_nat k) * lineHeight)%Q |}).
Proof.
  unfold fillTextCalls. split.
  - now rewrite fillTextFrom_length, length_rev.
  - intros Hk.
    destruct (nth_error lines (List.length lines - 1 - k)) as [line|] eqn:E.
    + exists line. split; [reflexivity|].
      apply (fillTextFrom_nth (rev lines) 0 k).
      rewrite nth_error_rev.
      apply Nat.ltb_lt in Hk. rewrite Hk.
      now replace (List.length lines - S k)%nat
        with (List.length lines - 1 - k)%nat by lia.
    + apply nth_error_None in E. lia.
Qed.

(** Every painted line lies inside the background box: with a font size
    [fontSize >= 0] and the line height 1.25 times the font size, the band
    of height [fontSize] above the bottom of each line is between the top
    and the bottom of the box, and the line, centred on the anchor, is
    between its left and right edge. *)
Theorem text_inside_box
  (measureText : string -> Q) (lines : list string) (x y fontSize : Q)
  (c : TextCall) :
  (0 <= fontSize)%Q ->
  In c (fillTextCalls lines x y (fontSize * (125 # 100))) ->
  let b := boxOf measureText lines x y (fontSize * (125 # 100)) fontSize in
  (boxTop b <= callY c - fontSize)%Q
  /\ (callY c <= boxTop b + boxHeight b)%Q
  /\ (boxX b <= callX c - measureText (callText c) / 2)%Q
  /\ (callX c + measureText (callText c) / 2 <= boxX b + boxWidth b)%Q.
Proof.
  intros Hfs Hin b. unfold fillTextCalls in Hin.
  apply fillTextFrom_In in Hin as (k & Hk & Hline & Hx & Hy).
  rewrite length_rev in Hk. apply in_rev in Hline.
  assert (Hmax : (measureText (callText c)
                  <= maxLineWidth measureText lines)%Q).
  { destruct (maxLineWidth_from measureText lines 0) as (_ & H & _).
    exact (H _ Hline). }
  subst b. unfold boxOf. cbn [boxTop boxHeight boxX boxWidth].
  rewrite Hx, Hy.
  assert (Hqk : (0 <= inject_Z (Z.of_nat k))%Q).
  { change 0%Q with (inject_Z 0). rewrite <- Zle_Qle. lia. }
  assert (Hqn : (inject_Z (Z.of_nat k) + 1
                 <= inject_Z (Z.of_nat (List.length lines)))%Q).
  { change 1%Q with (inject_Z 1). rewrite <- inject_Z_plus, <- Zle_Qle. lia. }
  revert Hqk Hqn Hmax.
  generalize (inject_Z (Z.of_nat k)), (inject_Z (Z.of_nat (List.length lines))),
    (maxLineWidth measureText lines), (measureText (callText c)).
  intros qk qn widest w Hqk Hqn Hmax.
  assert (P1 : (0 <= (qn - qk - 1) * fontSize)%Q)
    by (apply Qmult_le_0_compat; lra).
  assert (P2 : (0 <= qk * fontSize)%Q) by (apply Qmult_le_0_compat; lra).
  unfold Qdiv. change (/ 2)%Q with (1 # 2)%Q. repeat split; lra.
Qed.

Lemma text_inside_box_witness :
  let measure := fun s => inject_Z (Z.of_nat (String.length s)) in
  let c := {| callText := "World"; callX := 640;
              callY := 648 - 0 * (24 * (125 # 100)) |} in
  let b := boxOf measure ["Hello"%string; "World"%string] 640 648
             (24 * (125 # 100)) 24 in
  (boxTop b <= callY c - 24)%Q
  /\ (callY c <= boxTop b + boxHeight b)%Q
  /\ (boxX b <= callX c - measure (callText c) / 2)%Q
  /\ (callX c + measure (callText c) / 2 <= boxX b + boxWidth b)%Q.
Proof.
  apply (text_inside_box
           (fun s => inject_Z (Z.of_nat (String.length s)))
           ["Hello"%string; "World"%string] 640 648 24
           {| callText := "World"; callX := 640;
              callY := 648 - 0 * (24 * (125 # 100)) |}).
  - discriminate.
  - left. reflexivity.
Defined.

(** ** Burn job: what a resolution needs, and the normal run *)

Module BurnRuns.
Import Burn.

Local Open Scope string_scope.








Lemma run_data (sizes : list nat) (j : job) (r : MediaRecorder) :
  recorder j = Some r ->
  run j (map dataavailable sizes)
  = withRecorder
      (Some {| mimeType := mimeType r; state := state r;
               chunks := chunks r + nonEmptyChunks sizes |}) j.
Proof.
  revert j r. induction sizes as [|size sizes IH]; intros j r Hr.
  - unfold nonEmptyChunks. simpl. rewrite Nat.add_0_r.
    destruct j, r. simpl in *. now subst.
  - simpl. rewrite Hr. unfold nonEmptyChunks. simpl.
    destruct (0 <? size)%nat.
    + erewrite IH by reflexivity. destruct j. simpl.
      unfold withRecorder, nonEmptyChunks. simpl. do 3 f_equal. lia.
    + now rewrite (IH j r Hr).
Qed.

End BurnRuns.


(** The normal run: metadata, chunks, end of the source, the timer, more
    chunks, the stop.  The promise resolves with a blob of the negotiated
    media type that holds every non-empty chunk. *)
Theorem normal_run_resolves
  (vp9 mp4 : bool) (before after : list nat) :
  Burn.surfaced
    (Burn.run (Burn.burnSubtitles true)
       (Burn.loadedmetadata vp9 mp4
        :: map Burn.dataavailable before
        ++ [Burn.ended; Burn.timeout]
        ++ map Burn.dataavailable after
        ++ [Burn.stop]))
  = [Burn.Resolved (Burn.chooseMimeType vp9 mp4)
       (nonEmptyChunks before + nonEmptyChunks after)].
Proof.
  unfold Burn.run. cbn [fold_left Burn.burnSubtitles Burn.step Burn.handlers].
  rewrite !fold_left_app.
  change (fold_left Burn.step (map Burn.dataavailable before))
    with (fun j => Burn.run j (map Burn.dataavailable before)).
  cbv beta. erewrite BurnRuns.run_data by reflexivity.
  cbn [fold_left Burn.step Burn.withRecorder Burn.handlers Burn.timers
       Burn.recorder Burn.state Burn.mimeType Burn.chunks Burn.sessions
       Burn.starts Burn.stopping Burn.rejects Burn.surfaced].
  change (fold_left Burn.step (map Burn.dataavailable after))
    with (fun j => Burn.run j (map Burn.dataavailable after)).
  cbv beta. erewrite BurnRuns.run_data by reflexivity.
  cbn. reflexivity.
Qed.




(** ** The editor: undo history *)

Module HistoryFacts.
Import App.

Lemma last_snoc {A : Type} (l : list A) (x d : A) : last (l ++ [x]) d = x.
Proof.
  induction l as [|a l IH]; simpl; auto.
  destruct (l ++ [x]) eqn:E; [destruct l; discriminate | exact IH].
Qed.

Lemma removelast_snoc {A : Type} (l : list A) (x : A) :
  removelast (l ++ [x]) = l.
Proof.
  induction l as [|a l IH]; simpl; auto.
  destruct (l ++ [x]) eqn:E; [destruct l; discriminate | now rewrite IH].
Qed.

Lemma tl_snoc {A : Type} (l : list A) (x : A) :
  l <> [] -> tl (l ++ [x]) = tl l ++ [x].
Proof. destruct l; [contradiction | reflexivity]. Qed.

Lemma length_removelast {A : Type} (l : list A) :
  l <> [] -> S (List.length (removelast l)) = List.length l.
Proof.
  induction l as [|a l IH]; [contradiction|]. intros _.
  destruct l as [|b l]; [reflexivity|].
  change (removelast (a :: b :: l)) with (a :: removelast (b :: l)).
  change (List.length (a :: removelast (b :: l)))
    with (S (List.length (removelast (b :: l)))).
  rewrite IH by discriminate. reflexivity.
Qed.

(** The stack [handleCuesChange] leaves: it ends with the cues replaced and
    holds at most 50 states if the old one did. *)
Lemma newPast_spec (p : list (list SubtitleCue)) (c : list SubtitleCue) :
  let newPast := p ++ [c] in
  let kept := if (50 <? List.length newPast)%nat then tl newPast
              else newPast in
  (exists front, kept = front ++ [c])
  /\ ((List.length p <= 50)%nat -> (List.length kept <= 50)%nat).
Proof.
  cbv zeta. rewrite length_app. simpl.
  destruct (Nat.ltb_spec 50 (List.length p + 1)) as [H|H].
  - split.
    + exists (tl p). apply tl_snoc. destruct p; simpl in H; [lia|discriminate].
    + intros Hp. destruct p; simpl in *; [lia|].
      rewrite length_app. simpl. lia.
  - split; [now exists p|]. intros _. rewrite length_app. simpl. lia.
Qed.

End HistoryFacts.

(** Undo after a change gives back exactly the cues the change replaced,
    whatever the history held, also when it was full, and the cues undone
    are what redo will bring back. *)
Theorem undo_after_change (s : App.editor) (newCues : list SubtitleCue) :
  App.cues (App.undo (App.handleCuesChange s newCues)) = App.cues s
  /\ App.future (App.undo (App.handleCuesChange s newCues)) = [newCues]
  /\ App.cues (App.redo (App.undo (App.handleCuesChange s newCues)))
     = newCues.
Proof.
  destruct (HistoryFacts.newPast_spec (App.past s) (App.cues s))
    as [(front & E) _].
  unfold App.undo, App.handleCuesChange. cbn [App.past App.cues App.future].
  rewrite E.
  destruct (front ++ [App.cues s]) eqn:E'; [destruct front; discriminate|].
  rewrite <- E'. cbn [App.cues App.future].
  rewrite HistoryFacts.last_snoc. repeat split.
Qed.

(** Redo undoes undo and undo undoes redo, whenever there is something to
    undo or to redo. *)
Theorem undo_redo_inverse (s : App.editor) :
  (App.past s <> [] -> App.redo (App.undo s) = s)
  /\ (App.future s <> [] -> App.undo (App.redo s) = s).
Proof.
  destruct s as [c p f]. unfold App.undo, App.redo. simpl. split; intros H.
  - destruct p as [|x p]; [contradiction|]. cbn [App.future App.cues App.past].
    now rewrite <- app_removelast_last by discriminate.
  - destruct f as [|next f]; [contradiction|].
    cbn [App.future App.cues App.past].
    destruct (p ++ [c]) eqn:E; [destruct p; discriminate|]. rewrite <- E.
    now rewrite HistoryFacts.last_snoc, HistoryFacts.removelast_snoc.
Qed.

(** From the initial state, whatever the user does, the history holds at
    most 50 states, the ones to undo and the ones to redo counted
    together. *)
Theorem history_bounded (actions : list App.action) :
  (List.length (App.past (fold_left App.act actions App.initial))
   + List.length (App.future (fold_left App.act actions App.initial))
   <= 50)%nat.
Proof.
  assert (H : forall s,
    (List.length (App.past s) + List.length (App.future s) <= 50)%nat ->
    (List.length (App.past (fold_left App.act actions s))
     + List.length (App.future (fold_left App.act actions s)) <= 50)%nat).
  { induction actions as [|a actions IH]; intros s Hs; [exact Hs|].
    simpl. apply IH. destruct a as [newCues| |]; simpl.
    - destruct (HistoryFacts.newPast_spec (App.past s) (App.cues s))
        as [_ Hlen].
      cbv zeta in Hlen. specialize (Hlen ltac:(lia)). simpl. lia.
    - destruct s as [c p f]. unfold App.undo.
      cbn [App.past App.cues App.future] in *.
      destruct p as [|x p]; [exact Hs|]. cbn [App.past App.future].
      pose proof (HistoryFacts.length_removelast (x :: p) ltac:(discriminate))
        as Hl.
      revert Hl. generalize (removelast (x :: p)). intros l Hl.
      simpl in *. lia.
    - unfold App.redo. destruct s as [c p [|next f]]; simpl in *;
        [exact Hs|].
      rewrite length_app. simpl. lia. }
  apply H. simpl. lia.
Qed.

(** ** The editor: editing, deleting and adding cues *)

Module CueFacts.
Import App.

Lemma Array_find_map {A : Type} (p : A -> bool) (f : A -> A) (l : list A) :
  (forall x, p (f x) = p x) ->
  Array_find p (map f l) = option_map f (Array_find p l).
Proof.
  intros H. induction l as [|x l IH]; simpl; auto.
  rewrite H. destruct (p x); auto.
Qed.

Lemma Array_find_filter {A : Type} (p q : A -> bool) (l : list A) (x : A) :
  Array_find p l = Some x -> q x = true ->
  Array_find p (filter q l) = Some x.
Proof.
  induction l as [|y l IH]; simpl; [discriminate|].
  destruct (p y) eqn:Py.
  - intros [= ->] Hq. rewrite Hq. simpl. now rewrite Py.
  - intros H Hq. destruct (q y); simpl; rewrite ?Py; auto.
Qed.

Lemma Array_find_In {A : Type} (p : A -> bool) (l : list A) (x : A) :
  Array_find p l = Some x -> In x l.
Proof.
  induction l as [|y l IH]; simpl; [discriminate|].
  destruct (p y); [intros [= ->]; now left | auto].
Qed.

End CueFacts.

(** Editing the text of a cue changes no id and no time, so at every time
    the active cue keeps its id, and the edited cue has the new text. *)
Theorem text_edit_keeps_timing
  (cues : list SubtitleCue) (i value : string) (t : number) :
  map id (App.onUpdateCue cues i (App.textUpdate value)) = map id cues
  /\ map startTime (App.onUpdateCue cues i (App.textUpdate value))
     = map startTime cues
  /\ map endTime (App.onUpdateCue cues i (App.textUpdate value))
     = map endTime cues
  /\ option_map id
       (activeCue (App.onUpdateCue cues i (App.textUpdate value)) t)
     = option_map id (activeCue cues t)
  /\ (forall c, In c (App.onUpdateCue cues i (App.textUpdate value)) ->
        id c = i -> text c = value)
  /\ (forall c, In c cues -> id c <> i ->
        In c (App.onUpdateCue cues i (App.textUpdate value))).
Proof.
  unfold App.onUpdateCue.
  set (f := fun c => if String.eqb (id c) i
                     then App.spread c (App.textUpdate value) else c).
  assert (Hid : forall c, id (f c) = id c)
    by (intros c; unfold f; now destruct (String.eqb (id c) i)).
  assert (Hst : forall c, startTime (f c) = startTime c)
    by (intros c; unfold f; now destruct (String.eqb (id c) i)).
  assert (Het : forall c, endTime (f c) = endTime c)
    by (intros c; unfold f; now destruct (String.eqb (id c) i)).
  repeat split.
  - rewrite map_map. now apply map_ext.
  - rewrite map_map. now apply map_ext.
  - rewrite map_map. now apply map_ext.
  - unfold activeCue. rewrite CueFacts.Array_find_map.
    + destruct (Array_find (cueContains t) cues); simpl; [|reflexivity].
      now rewrite Hid.
    + intros c. unfold cueContains. now rewrite Hst, Het.
  - intros c Hin Hc. apply in_map_iff in Hin as (c0 & <- & _).
    rewrite Hid in Hc. unfold f. apply String.eqb_eq in Hc.
    now rewrite Hc.
  - intros c Hin Hc. apply in_map_iff. exists c. split; [|exact Hin].
    unfold f. apply String.eqb_neq in Hc. now rewrite Hc.
Qed.

(** Deleting by id removes every cue with that id and no other; and a cue
    with another id that was active stays the active one. *)
Theorem delete_keeps_others
  (cues : list SubtitleCue) (i : string) (t : number) (c : SubtitleCue) :
  (In c (App.onDeleteCue cues i) <-> In c cues /\ id c <> i)
  /\ (activeCue cues t = Some c -> id c <> i ->
      activeCue (App.onDeleteCue cues i) t = Some c)
  /\ (activeCue (App.onDeleteCue cues i) t = Some c -> id c <> i).
Proof.
  unfold App.onDeleteCue.
  assert (Hkeep : forall d : SubtitleCue,
            negb (String.eqb (id d) i) = true <-> id d <> i).
  { intros d. rewrite negb_true_iff. apply String.eqb_neq. }
  split; [|split].
  - rewrite filter_In, Hkeep. reflexivity.
  - intros H Hc. apply CueFacts.Array_find_filter; auto.
    now apply Hkeep.
  - intros H. apply CueFacts.Array_find_In, filter_In in H as [_ H'].
    now apply Hkeep.
Qed.

Module SortFacts.
Import App.

Section Sorting.

(** The comparator of [onAddCue]. *)
Let cmp : SubtitleCue -> SubtitleCue -> number :=
  fun a b => sub (startTime a) (startTime b).

Lemma positive_cmp (a b : SubtitleCue) (qa qb : Q) :
  startTime a = Fin qa -> startTime b = Fin qb ->
  positive (cmp a b) = Qltb qb qa.
Proof.
  intros Ha Hb. unfold cmp, sub, neg. rewrite Ha, Hb. cbn [add positive].
  destruct (Qltb qb qa) eqn:E.
  - apply Qltb_spec in E. apply Qltb_spec. rewrite !Qred_correct. lra.
  - destruct (Qltb 0 _) eqn:E'; auto.
    apply Qltb_spec in E'. rewrite !Qred_correct in E'.
    assert (H : (qb < qa)%Q) by lra. apply Qltb_spec in H. congruence.
Qed.

Lemma Array_sort_snoc (l : list SubtitleCue) (x : SubtitleCue) :
  Array_sort cmp (l ++ [x]) = insertSorted cmp x (Array_sort cmp l).
Proof. unfold Array_sort. now rewrite fold_left_app. Qed.

Lemma insertSorted_perm (x : SubtitleCue) (l : list SubtitleCue) :
  Permutation (x :: l) (insertSorted cmp x l).
Proof.
  induction l as [|y l IH]; simpl; auto.
  destruct (positive (cmp y x)); auto.
  rewrite perm_swap. now constructor.
Qed.

Lemma Array_sort_perm (l : list SubtitleCue) :
  Permutation l (Array_sort cmp l).
Proof.
  induction l as [|x l IH] using rev_ind; [constructor|].
  rewrite Array_sort_snoc, <- insertSorted_perm.
  rewrite Permutation_app_comm. simpl. now constructor.
Qed.

Lemma startsBefore_trans (a b c : SubtitleCue) :
  finiteStart a -> finiteStart b -> finiteStart c ->
  startsBefore a b -> startsBefore b c -> startsBefore a c.
Proof.
  unfold startsBefore. intros [qa ->] [qb ->] [qc ->]. simpl.
  apply Qle_trans.
Qed.

(** Where [insertSorted] puts [x] in a sorted list: after the cues that
    start no later, before the ones that start later. *)
Lemma insertSorted_place (x : SubtitleCue) (l : list SubtitleCue) :
  finiteStart x -> Forall finiteStart l -> StronglySorted startsBefore l ->
  exists before after,
    l = before ++ after
    /\ insertSorted cmp x l = before ++ x :: after
    /\ (forall c, In c before -> startsBefore c x)
    /\ (forall c, In c after -> startsBefore x c /\ ~ startsBefore c x).
Proof.
  intros [qx Hx] Hfin Hsorted.
  induction l as [|y l IH]; simpl.
  - exists [], []. repeat split; auto; contradiction.
  - apply StronglySorted_inv in Hsorted as [Hl Hy].
    assert (Hfy : finiteStart y) by exact (Forall_inv Hfin).
    destruct Hfy as [qy Hqy].
    pose proof (Forall_inv_tail Hfin) as Hfin'.
    rewrite (positive_cmp y x qy qx Hqy Hx).
    destruct (Qltb qx qy) eqn:E.
    + apply Qltb_spec in E.
      exists [], (y :: l). repeat split; auto; try contradiction.
      * destruct H as [<-|Hc].
        -- unfold startsBefore. rewrite Hx, Hqy. simpl.
           now apply Qlt_le_weak.
        -- rewrite Forall_forall in Hy, Hfin'.
           apply (startsBefore_trans x y c); auto.
           ++ now exists qx.
           ++ now exists qy.
           ++ unfold startsBefore. rewrite Hx, Hqy. simpl.
              now apply Qlt_le_weak.
      * intros Hcx. destruct H as [<-|Hc].
        -- unfold startsBefore in Hcx. rewrite Hx, Hqy in Hcx. simpl in Hcx.
           now apply (Qlt_not_le _ _ E).
        -- rewrite Forall_forall in Hy, Hfin'.
           assert (Hyx : startsBefore y x).
           { apply (startsBefore_trans y c x); auto.
             - now exists qy.
             - now exists qx. }
           unfold startsBefore in Hyx. rewrite Hx, Hqy in Hyx.
           simpl in Hyx. now apply (Qlt_not_le _ _ E).
    + assert (Hle : (qy <= qx)%Q).
      { apply Qnot_lt_le. intros H. apply Qltb_spec in H. congruence. }
      destruct (IH Hfin' Hl) as (before & after & -> & Eins & Hb & Ha).
      exists (y :: before), after. rewrite Eins. repeat split; auto.
      * intros c [<-|Hc]; auto.
        unfold startsBefore. rewrite Hx, Hqy. exact Hle.
      * now apply Ha.
      * now apply Ha.
Qed.

Lemma sorted_middle (x : SubtitleCue) (before after : list SubtitleCue) :
  finiteStart x -> Forall finiteStart (before ++ after) ->
  StronglySorted startsBefore (before ++ after) ->
  (forall c, In c before -> startsBefore c x) ->
  (forall c, In c after -> startsBefore x c) ->
  StronglySorted startsBefore (before ++ x :: after).
Proof.
  intros Hx Hfin Hs Hb Ha.
  induction before as [|y before IH]; simpl in *.
  - constructor; auto. now apply Forall_forall.
  - apply StronglySorted_inv in Hs as [Hs' Hy].
    pose proof (Forall_inv Hfin) as Hfy.
    pose proof (Forall_inv_tail Hfin) as Hfin'.
    constructor.
    + apply IH; auto.
    + apply Forall_forall. intros c Hc.
      apply in_app_or in Hc as [Hc|[<-|Hc]].
      * rewrite Forall_forall in Hy. apply Hy, in_or_app. now left.
      * apply Hb. now left.
      * rewrite Forall_forall in Hy. apply Hy, in_or_app. now right.
Qed.

Lemma insertSorted_sorted (x : SubtitleCue) (l : list SubtitleCue) :
  finiteStart x -> Forall finiteStart l -> StronglySorted startsBefore l ->
  StronglySorted startsBefore (insertSorted cmp x l).
Proof.
  intros Hx Hfin Hs.
  destruct (insertSorted_place x l Hx Hfin Hs)
    as (before & after & -> & -> & Hb & Ha).
  apply sorted_middle; auto. intros c Hc. now apply Ha.
Qed.

Lemma Array_sort_sorted (l : list SubtitleCue) :
  Forall finiteStart l -> StronglySorted startsBefore (Array_sort cmp l).
Proof.
  induction l as [|x l IH] using rev_ind; intros Hfin; [constructor|].
  apply Forall_app in Hfin as [Hl Hx]. apply Forall_inv in Hx.
  rewrite Array_sort_snoc. apply insertSorted_sorted; auto.
  apply (Permutation_Forall (Array_sort_perm l) Hl).
Qed.

(** A stable sort leaves a sorted list as it is. *)
Lemma Array_sort_id (l : list SubtitleCue) :
  Forall finiteStart l -> StronglySorted startsBefore l ->
  Array_sort cmp l = l.
Proof.
  induction l as [|x l IH] using rev_ind; intros Hfin Hs; [reflexivity|].
  apply Forall_app in Hfin as [Hl Hx]. pose proof (Forall_inv Hx) as Hfx.
  assert (Hs' : StronglySorted startsBefore l /\
                forall c, In c l -> startsBefore c x).
  { clear - Hs. induction l as [|y l IH]; simpl in *.
    - split; [constructor | contradiction].
    - apply StronglySorted_inv in Hs as [Hs' Hy].
      destruct (IH Hs') as [H1 H2]. split.
      + constructor; auto. rewrite Forall_forall in *.
        intros c Hc. apply Hy, in_or_app. now left.
      + intros c [<-|Hc]; auto.
        rewrite Forall_forall in Hy. apply Hy, in_or_app. right. now left. }
  destruct Hs' as [Hsl Hlx].
  rewrite Array_sort_snoc, (IH Hl Hsl).
  destruct (insertSorted_place x l Hfx Hl Hsl)
    as (before & after & E & -> & Hb & Ha).
  destruct after as [|c after].
  - rewrite app_nil_r in E. now subst.
  - exfalso. apply (Ha c (or_introl eq_refl)). apply Hlx.
    rewrite E. apply in_or_app. right. now left.
Qed.

End Sorting.

End SortFacts.

(** Adding a cue at a finite time to cues with finite start times gives all
    the cues and the new one, in the order of their start times. *)
Theorem onAddCue_sorted
  (cues : list SubtitleCue) (currentTime : Q) (now : string) :
  Forall finiteStart cues ->
  Permutation (cues ++ [App.newCue (Fin currentTime) now])
              (App.onAddCue cues (Fin currentTime) now)
  /\ StronglySorted startsBefore (App.onAddCue cues (Fin currentTime) now).
Proof.
  intros Hfin. unfold App.onAddCue. split.
  - apply SortFacts.Array_sort_perm.
  - apply SortFacts.Array_sort_sorted. apply Forall_app. split; auto.
    constructor; [|constructor]. now exists currentTime.
Qed.

Lemma onAddCue_sorted_witness :
  StronglySorted startsBefore
    (App.onAddCue
       [{| id := "b"; startTime := num 5; endTime := num 6; text := "b" |};
        {| id := "a"; startTime := num 1; endTime := num 2; text := "a" |}]
       (Fin (3 # 1)) "now").
Proof.
  refine (proj2 (onAddCue_sorted _ (3 # 1) "now" _)).
  repeat constructor; eexists; reflexivity.
Defined.

(** When the cues are already in the order of their start times, adding a
    cue keeps them in place and puts the new cue after every cue that starts
    at or before the current time and before every cue that starts later. *)
Theorem onAddCue_place
  (cues : list SubtitleCue) (currentTime : Q) (now : string) :
  Forall finiteStart cues -> StronglySorted startsBefore cues ->
  exists before after,
    cues = before ++ after
    /\ App.onAddCue cues (Fin currentTime) now
       = before ++ App.newCue (Fin currentTime) now :: after
    /\ (forall c, In c before ->
          number_le (startTime c) (Fin currentTime))
    /\ (forall c, In c after ->
          number_le (Fin currentTime) (startTime c)
          /\ ~ number_le (startTime c) (Fin currentTime)).
Proof.
  intros Hfin Hs. unfold App.onAddCue.
  rewrite SortFacts.Array_sort_snoc, SortFacts.Array_sort_id by assumption.
  apply (SortFacts.insertSorted_place
           (App.newCue (Fin currentTime) now) cues); auto.
  now exists currentTime.
Qed.

(** ** Subtitle files: tags and blank content *)

Module TagFacts.
Import Srt.

Lemma stripTagsFrom_occurs (c : ascii) (s : string) (inTag : bool) :
  occurs c s = false -> occurs c (stripTagsFrom inTag s) = false.
Proof.
  revert inTag. induction s as [|a s IH]; simpl; intros inTag H; auto.
  apply orb_false_iff in H as [Ha Hs].
  destruct inTag; [now apply IH|].
  destruct (Ascii.eqb a "<" && occurs ">" s); [now apply IH|].
  simpl. now rewrite Ha, IH.
Qed.

Lemma stripTagsFrom_no_tag (s : string) (inTag : bool) :
  hasTag (stripTagsFrom inTag s) = false.
Proof.
  revert inTag. induction s as [|a s IH]; simpl; intros inTag; auto.
  destruct inTag; [apply IH|].
  destruct (Ascii.eqb a "<" && occurs ">" s) eqn:E; [apply IH|].
  simpl. rewrite IH, orb_false_r.
  destruct (Ascii.eqb a "<"); simpl in *; auto.
  now apply stripTagsFrom_occurs.
Qed.

Lemma stripTags_id (s : string) : hasTag s = false -> stripTags s = s.
Proof.
  unfold stripTags. induction s as [|a s IH]; simpl; auto.
  intros H. apply orb_false_iff in H as [Ha Hs]. now rewrite Ha, IH.
Qed.

Lemma parseBlock_text (newId block : string) (c : SubtitleCue) :
  parseBlock newId block = Some c -> exists raw, text c = stripTags raw.
Proof.
  unfold parseBlock.
  destruct (_ || _); [discriminate|].
  destruct (2 <=? _)%nat; [|discriminate].
  destruct (timeLineIndex _) as [index|]; [|discriminate].
  destruct (nth_error _ 0) as [startStr|]; [|discriminate].
  destruct (nth_error _ 1) as [endStr|]; [|discriminate].
  destruct (_ && _); [|discriminate].
  intros [= <-]. simpl. eauto.
Qed.

Lemma parseBlocks_In (ids : nat -> string) (blocks : list string)
  (pushed : nat) (c : SubtitleCue) :
  In c (parseBlocks ids pushed blocks) ->
  exists newId block, In block blocks /\ parseBlock newId block = Some c.
Proof.
  revert pushed. induction blocks as [|b blocks IH]; simpl; intros pushed H.
  - contradiction.
  - destruct (parseBlock (ids pushed) b) as [cue|] eqn:E.
    + destruct H as [<-|H]; [now exists (ids pushed), b; auto|].
      destruct (IH _ H) as (i & blk & Hin & Hp). exists i, blk. auto.
    + destruct (IH _ H) as (i & blk & Hin & Hp). exists i, blk. auto.
Qed.

Lemma skipWhite_allWhite (s : string) :
  allWhite s = true -> Str.skipWhite s = EmptyString.
Proof.
  induction s as [|c s IH]; simpl; auto.
  intros H. apply andb_true_iff in H as [Hc Hs]. now rewrite Hc, IH.
Qed.

End TagFacts.

(** The text of an imported cue holds no complete tag, whatever the file
    holds: after the removal no ["<"] is followed by a [">"]; and a text
    without tags is left as it is. *)
Theorem imported_text_has_no_tag
  (ids : nat -> string) (srtContent : string) (c : SubtitleCue) (s : string) :
  hasTag (Srt.stripTags s) = false
  /\ (hasTag s = false -> Srt.stripTags s = s)
  /\ (In c (Srt.parseSRT ids srtContent) -> hasTag (text c) = false).
Proof.
  split; [apply TagFacts.stripTagsFrom_no_tag|].
  split; [apply TagFacts.stripTags_id|].
  intros H. apply TagFacts.parseBlocks_In in H as (i & b & _ & Hp).
  apply TagFacts.parseBlock_text in Hp as (raw & ->).
  apply TagFacts.stripTagsFrom_no_tag.
Qed.

(** A file that is empty or holds only white space gives no cue. *)
Theorem blank_file_has_no_cue (ids : nat -> string) (srtContent : string) :
  allWhite srtContent = true -> Srt.parseSRT ids srtContent = [].
Proof.
  intros H. unfold Srt.parseSRT, Srt.trim.
  now rewrite TagFacts.skipWhite_allWhite.
Qed.

Lemma blank_file_has_no_cue_witness :
  Srt.parseSRT (fun _ => "id"%string) (String LF (String SP "")) = [].
Proof.
  apply (blank_file_has_no_cue (fun _ => "id"%string)). reflexivity.
Defined.

Lemma onAddCue_place_witness :
  exists before after,
    [{| id := "a"; startTime := num 1; endTime := num 2; text := "a" |};
     {| id := "b"; startTime := num 5; endTime := num 6; text := "b" |}]
    = before ++ after
    /\ App.onAddCue
         [{| id := "a"; startTime := num 1; endTime := num 2; text := "a" |};
          {| id := "b"; startTime := num 5; endTime := num 6; text := "b" |}]
         (Fin (3 # 1)) "now"
       = before ++ App.newCue (Fin (3 # 1)) "now" :: after
    /\ (forall c, In c before -> number_le (startTime c) (Fin (3 # 1)))
    /\ (forall c, In c after ->
          number_le (Fin (3 # 1)) (startTime c)
          /\ ~ number_le (startTime c) (Fin (3 # 1))).
Proof.
  apply (onAddCue_place
           [{| id := "a"; startTime := num 1; endTime := num 2;
               text := "a" |};
            {| id := "b"; startTime := num 5; endTime := num 6;
               text := "b" |}]
           (3 # 1) "now").
  - repeat constructor; eexists; reflexivity.
  - repeat constructor. unfold startsBefore. simpl. discriminate.
Defined.

(** ** Export and import of a subtitle file *)

Module SrtFacts.
Import Srt.

Local Open Scope string_scope.

(** *** Classes of characters *)

Lemma allChars_app (p : ascii -> bool) (a b : string) :
  allChars p (a ++ b) = allChars p a && allChars p b.
Proof.
  induction a as [|c a IH]; simpl; auto. now rewrite IH, andb_assoc.
Qed.

Lemma allChars_impl (p q : ascii -> bool) (s : string) :
  (forall c, p c = true -> q c = true) ->
  allChars p s = true -> allChars q s = true.
Proof.
  intros H. induction s as [|c s IH]; simpl; auto.
  intros Hs. apply andb_true_iff in Hs as [Hc Hs].
  now rewrite (H c Hc), IH.
Qed.

Lemma allChars_occurs (p : ascii -> bool) (x : ascii) (s : string) :
  p x = false -> allChars p s = true -> occurs x s = false.
Proof.
  intros Hx. induction s as [|c s IH]; simpl; auto.
  intros Hs. apply andb_true_iff in Hs as [Hc Hs].
  rewrite (IH Hs), orb_false_r. apply Ascii.eqb_neq. congruence.
Qed.

Lemma allDigits_allChars (s : string) :
  allDigits s = true -> allChars timecodeChar s = true.
Proof.
  induction s as [|c s IH]; simpl; auto. unfold timecodeChar at 1.
  destruct (Str.digitVal c); [auto | discriminate].
Qed.

Lemma timecodeChar_nonWhite (c : ascii) :
  timecodeChar c = true -> negb (Str.isWhite c) = true.
Proof.
  destruct c as [[] [] [] [] [] [] [] []]; try discriminate; reflexivity.
Qed.

Lemma nonWhite_ends (s : string) :
  allChars (fun c => negb (Str.isWhite c)) s = true -> s <> "" ->
  startsNonWhite s = true /\ endsNonWhite s = true.
Proof.
  intros H Hne. split.
  - destruct s; [congruence|]. simpl in *.
    now apply andb_true_iff in H as [H _].
  - induction s as [|c s IH]; [congruence|]. simpl in *.
    apply andb_true_iff in H as [Hc Hs].
    destruct s; [exact Hc|]. apply IH; [exact Hs | discriminate].
Qed.

(** *** trim *)

Lemma skipWhite_starts (s : string) :
  startsNonWhite s = true -> Str.skipWhite s = s.
Proof.
  destruct s as [|c s]; simpl; [discriminate|].
  intros H. apply negb_true_iff in H. now rewrite H.
Qed.

Lemma trimEnd_ends (s : string) : endsNonWhite s = true -> trimEnd s = s.
Proof.
  induction s as [|c s IH]; simpl; [discriminate|].
  destruct s as [|c' s'].
  - intros H. apply negb_true_iff in H. simpl. now rewrite H.
  - intros H. rewrite (IH H). reflexivity.
Qed.

Lemma trim_id (s : string) :
  startsNonWhite s = true -> endsNonWhite s = true -> trim s = s.
Proof.
  intros Hs He. unfold trim. now rewrite skipWhite_starts, trimEnd_ends.
Qed.

Lemma trimEnd_allWhite (w : string) : allWhite w = true -> trimEnd w = "".
Proof.
  induction w as [|c w IH]; simpl; auto.
  intros H. apply andb_true_iff in H as [Hc Hw]. now rewrite (IH Hw), Hc.
Qed.

Lemma trimEnd_app_white (s w : string) :
  endsNonWhite s = true -> allWhite w = true -> trimEnd (s ++ w) = s.
Proof.
  intros Hs Hw. induction s as [|c s IH]; simpl in *; [discriminate|].
  destruct s as [|c' s'].
  - simpl. rewrite (trimEnd_allWhite w Hw).
    apply negb_true_iff in Hs. now rewrite Hs.
  - rewrite (IH Hs). reflexivity.
Qed.

Lemma endsNonWhite_app (a b : string) :
  endsNonWhite b = true -> endsNonWhite (a ++ b) = true.
Proof.
  intros H. induction a as [|c a IH]; simpl; auto.
  destruct (a ++ b) eqn:E; [|exact IH].
  destruct a; simpl in E; [subst; discriminate | discriminate].
Qed.

(** *** Splitting into blocks *)

Lemma prependHead_app (a b : string) (l : list string) :
  prependHead (a ++ b) l = prependHead a (prependHead b l).
Proof. destruct l; simpl; now rewrite ?append_assoc. Qed.

Lemma consHead_prepend (c : ascii) (l : list string) :
  consHead c l = prependHead (String c "") l.
Proof. now destruct l. Qed.

Lemma splitBlocksFrom_nonempty (skip : nat) (s : string) :
  splitBlocksFrom skip s <> [].
Proof.
  revert skip. induction s as [|c s IH]; intros skip; simpl.
  - discriminate.
  - destruct skip; [|apply IH].
    destruct (if Ascii.eqb c LF then blankLen s else None);
      [discriminate|].
    specialize (IH 0%nat). destruct (splitBlocksFrom 0 s);
      [contradiction | discriminate].
Qed.

(** No separator starts inside a piece without line break. *)
Lemma splitBlocks_line (u x : string) :
  occurs LF u = false ->
  splitBlocksFrom 0 (u ++ x) = prependHead u (splitBlocksFrom 0 x).
Proof.
  induction u as [|c u IH]; simpl; intros H.
  - pose proof (splitBlocksFrom_nonempty 0 x).
    now destruct (splitBlocksFrom 0 x).
  - apply orb_false_iff in H as [Hc Hu]. rewrite Hc, (IH Hu).
    rewrite consHead_prepend.
    now rewrite <- prependHead_app.
Qed.

(** A line break before a character that is not white space is no
    separator. *)
Lemma splitBlocks_break (v : string) :
  startsNonWhite v = true ->
  splitBlocksFrom 0 (String LF v)
  = prependHead (String LF "") (splitBlocksFrom 0 v).
Proof.
  intros H. cbn [splitBlocksFrom]. rewrite Ascii.eqb_refl.
  destruct v as [|c v]; [discriminate|]. simpl in H.
  apply negb_true_iff in H. cbn [blankLen]. rewrite H.
  apply consHead_prepend.
Qed.

Lemma blankLen_app (r w : string) :
  endsNonWhite r = true -> blankLen (r ++ w) = blankLen r.
Proof.
  induction r as [|c r IH]; simpl; [discriminate|].
  destruct (Str.isWhite c) eqn:Hc; [|reflexivity].
  destruct r as [|c' r'].
  - intros H. simpl in H. discriminate.
  - intros H. now rewrite (IH H).
Qed.

Lemma splitBlocksFrom_cons (c : ascii) (rest : string) :
  splitBlocksFrom 0 (String c rest)
  = match (if Ascii.eqb c LF then blankLen rest else None) with
    | Some n => EmptyString :: splitBlocksFrom n rest
    | None => consHead c (splitBlocksFrom 0 rest)
    end.
Proof. reflexivity. Qed.

Lemma splitBlocks_cons_inv (x : ascii) (r : string) :
  splitBlocksFrom 0 (String x r) = [String x r] ->
  (if Ascii.eqb x LF then blankLen r else None) = None
  /\ splitBlocksFrom 0 r = [r].
Proof.
  rewrite splitBlocksFrom_cons.
  destruct (if Ascii.eqb x LF then blankLen r else None);
    [discriminate|].
  pose proof (splitBlocksFrom_nonempty 0 r) as Hne.
  destruct (splitBlocksFrom 0 r) as [|w ws]; [contradiction|].
  simpl. intros [= -> ->]. auto.
Qed.

(** After a text without blank line that ends in a character that is not
    white space, two line breaks before such a character are a separator,
    and the first one of the text. *)
Lemma splitBlocks_text (t b : string) :
  endsNonWhite t = true -> splitBlocks t = [t] ->
  startsNonWhite b = true ->
  splitBlocksFrom 0 (t ++ String LF (String LF b))
  = t :: splitBlocksFrom 0 b.
Proof.
  unfold splitBlocks. intros He Hs Hb.
  induction t as [|x r IH]; [discriminate|].
  destruct r as [|x' r'].
  - simpl in He. apply negb_true_iff in He.
    assert (Hx : Ascii.eqb x LF = false).
    { destruct (Ascii.eqb_spec x LF) as [->|]; [discriminate He | auto]. }
    change (String x "" ++ String LF (String LF b))
      with (String x (String LF (String LF b))).
    rewrite splitBlocksFrom_cons, Hx, splitBlocksFrom_cons.
    rewrite Ascii.eqb_refl.
    destruct b as [|c b]; [discriminate|]. simpl in Hb.
    apply negb_true_iff in Hb.
    assert (Hbl : blankLen (String LF (String c b)) = Some 1%nat).
    { cbn [blankLen]. rewrite Hb. reflexivity. }
    rewrite Hbl. reflexivity.
  - assert (He' : endsNonWhite (String x' r') = true) by exact He.
    destruct (splitBlocks_cons_inv _ _ Hs) as [Hnone Hr].
    change (String x (String x' r') ++ String LF (String LF b))
      with (String x (String x' r' ++ String LF (String LF b))).
    rewrite splitBlocksFrom_cons.
    assert (Hnone' : (if Ascii.eqb x LF
                      then blankLen (String x' r' ++ String LF (String LF b))
                      else None) = None).
    { destruct (Ascii.eqb x LF); [|reflexivity].
      now rewrite (blankLen_app _ _ He'). }
    rewrite Hnone', (IH He' Hr). reflexivity.
Qed.

(** *** The pieces of a block *)

Lemma pad_allDigits (z : Z) (k : nat) :
  0 <= z -> allDigits (pad (IInt z) k) = true /\ pad (IInt z) k <> "".
Proof.
  intros Hz. unfold pad, Str.toString, Str.padStart.
  destruct (Z.ltb_spec z 0) as [Hneg|_]; [lia|].
  split.
  - rewrite allDigits_app, allDigits_repeat. apply allDigits_digits.
  - pose proof (digits_nonempty (N.to_nat (N.log2 (Z.to_N z))) (Z.to_N z))
      as Hne.
    unfold Str.N_toString.
    destruct (Str.repeat "0" _); simpl; [exact Hne | discriminate].
Qed.

Lemma index_allDigits (k : nat) :
  allDigits (Str.toString (IInt (Z.of_nat k + 1))) = true
  /\ Str.toString (IInt (Z.of_nat k + 1)) <> "".
Proof.
  unfold Str.toString.
  destruct (Z.ltb_spec (Z.of_nat k + 1) 0) as [Hneg|_]; [lia|].
  split; [apply allDigits_digits | apply digits_nonempty].
Qed.

(** A timecode for a time that is not negative is made of digits, colons
    and a comma. *)
Lemma formatSRTTime_chars (n : number) :
  inRange n ->
  allChars timecodeChar (formatSRTTime n) = true /\ formatSRTTime n <> "".
Proof.
  intros (q & -> & Hq & _).
  destruct (formatSRTTime_fields q Hq)
    as (H & M & S & MS & -> & _ & HH & _ & HM & _ & HS & _ & HMS).
  destruct (pad_allDigits H 2 HH) as [dA neA].
  destruct (pad_allDigits M 2 (proj1 HM)) as [dB _].
  destruct (pad_allDigits S 2 (proj1 HS)) as [dC _].
  destruct (pad_allDigits MS 3 (proj1 HMS)) as [dD _].
  split.
  - rewrite !allChars_app. cbn [allChars].
    rewrite !allDigits_allChars by assumption. reflexivity.
  - destruct (pad (IInt H) 2); [congruence | discriminate].
Qed.

Lemma timecode_nonWhite (s : string) :
  allChars timecodeChar s = true -> s <> "" ->
  startsNonWhite s = true /\ endsNonWhite s = true.
Proof.
  intros H. apply nonWhite_ends.
  apply (allChars_impl timecodeChar); [apply timecodeChar_nonWhite | exact H].
Qed.

Lemma startsNonWhite_app (a b : string) :
  startsNonWhite a = true -> startsNonWhite (a ++ b) = true.
Proof. destruct a; [discriminate | auto]. Qed.

Section Body.

Variable k : nat.
Variable c : SubtitleCue.
Hypothesis Hc : exportable c.

Let index := Str.toString (IInt (Z.of_nat k + 1)).
Let T1 := formatSRTTime (startTime c).
Let T2 := formatSRTTime (endTime c).

Lemma index_chars : allChars timecodeChar index = true /\ index <> "".
Proof.
  destruct (index_allDigits k) as [H1 H2].
  split; [now apply allDigits_allChars | exact H2].
Qed.

Lemma T1_chars : allChars timecodeChar T1 = true /\ T1 <> "".
Proof. apply formatSRTTime_chars, Hc. Qed.

Lemma T2_chars : allChars timecodeChar T2 = true /\ T2 <> "".
Proof. apply formatSRTTime_chars, Hc. Qed.

Lemma timeLine_no_break : occurs LF (timeLine c) = false.
Proof.
  unfold timeLine. fold T1 T2. rewrite occurs_app.
  rewrite (allChars_occurs timecodeChar LF T1 eq_refl (proj1 T1_chars)).
  cbn [append occurs]. simpl Ascii.eqb. simpl.
  apply (allChars_occurs timecodeChar LF T2 eq_refl (proj1 T2_chars)).
Qed.

Lemma timeLine_starts : startsNonWhite (timeLine c) = true.
Proof.
  unfold timeLine. fold T1 T2. apply startsNonWhite_app.
  destruct T1_chars as [H1 H2]. now apply timecode_nonWhite.
Qed.

Lemma blockBody_starts (x : string) :
  startsNonWhite (blockBody k c ++ x) = true.
Proof.
  apply startsNonWhite_app. unfold blockBody. fold index.
  apply startsNonWhite_app.
  destruct index_chars as [H1 H2]. now apply timecode_nonWhite.
Qed.

Lemma blockBody_ends : endsNonWhite (blockBody k c) = true.
Proof.
  unfold blockBody.
  change (index ++ String LF (timeLine c ++ String LF (text c)))
    with (index ++ String LF (timeLine c ++ String LF (text c))).
  apply endsNonWhite_app.
  change (String LF (timeLine c ++ String LF (text c)))
    with (String LF "" ++ (timeLine c ++ String LF (text c))).
  apply endsNonWhite_app, endsNonWhite_app.
  change (String LF (text c)) with (String LF "" ++ text c).
  apply endsNonWhite_app, Hc.
Qed.

Lemma blockBody_app (x : string) :
  blockBody k c ++ x
  = index ++ String LF (timeLine c ++ String LF (text c ++ x)).
Proof.
  unfold blockBody. fold index. rewrite append_assoc. cbn [append].
  now rewrite append_assoc.
Qed.

(** The block splits off whole wherever its text does. *)
Lemma splitBlocks_body (x : string) (pieces : list string) :
  splitBlocksFrom 0 (text c ++ x) = text c :: pieces ->
  splitBlocksFrom 0 (blockBody k c ++ x) = blockBody k c :: pieces.
Proof.
  intros Htext. destruct Hc as (_ & _ & Hs & He & _ & _).
  rewrite blockBody_app.
  rewrite splitBlocks_line
    by (apply (allChars_occurs timecodeChar); [reflexivity | apply index_chars]).
  rewrite splitBlocks_break
    by (apply startsNonWhite_app, timeLine_starts).
  rewrite splitBlocks_line by apply timeLine_no_break.
  rewrite splitBlocks_break by (now apply startsNonWhite_app).
  rewrite Htext. cbn [prependHead]. f_equal.
Qed.

End Body.

Lemma joinedBodies_starts (k : nat) (cues : list SubtitleCue) :
  Forall exportable cues -> cues <> [] ->
  startsNonWhite (joinedBodies k cues) = true.
Proof.
  intros Hall Hne. destruct cues as [|c rest]; [contradiction|].
  apply Forall_inv in Hall. cbn [joinedBodies].
  destruct rest.
  - rewrite <- (append_nil_r (blockBody k c)). now apply blockBody_starts.
  - now apply blockBody_starts.
Qed.

Lemma splitBlocks_joined (cues : list SubtitleCue) (k : nat) :
  Forall exportable cues -> cues <> [] ->
  splitBlocks (joinedBodies k cues) = bodiesFrom k cues.
Proof.
  unfold splitBlocks. revert k.
  induction cues as [|c rest IH]; intros k Hall Hne; [contradiction|].
  pose proof (Forall_inv Hall) as Hc.
  pose proof (Forall_inv_tail Hall) as Hrest.
  cbn [joinedBodies bodiesFrom].
  destruct Hc as (Hst & Het & Hs & He & Htag & Hsplit).
  assert (Hc : exportable c) by (repeat split; assumption).
  destruct rest as [|c' rest'].
  - rewrite <- (append_nil_r (blockBody k c)) at 1.
    rewrite (splitBlocks_body k c Hc "" []); [reflexivity|].
    now rewrite append_nil_r.
  - rewrite (splitBlocks_body k c Hc _
               (splitBlocksFrom 0 (joinedBodies (S k) (c' :: rest')))).
    + now rewrite IH by (auto; discriminate).
    + apply splitBlocks_text; auto.
      apply joinedBodies_starts; auto. discriminate.
Qed.

(** *** What [parseBlock] reads in a block of [generateSRT] *)

Lemma prefix_cons (a b : ascii) (s1 s2 : string) :
  String.prefix (String a s1) (String b s2)
  = Ascii.eqb a b && String.prefix s1 s2.
Proof.
  cbn [String.prefix]. destruct (ascii_dec a b) as [->|Hab].
  - now rewrite Ascii.eqb_refl.
  - apply Ascii.eqb_neq in Hab. now rewrite Hab.
Qed.

Lemma prefix_nil (s : string) : String.prefix "" s = true.
Proof. now destruct s. Qed.

Lemma includes_no_dash (s : string) :
  occurs "-" s = false -> includes "-->" s = false.
Proof.
  induction s as [|x s IH]; [reflexivity|].
  cbn [occurs]. intros H. apply orb_false_iff in H as [Hx Hs].
  cbn [includes String.prefix].
  destruct (ascii_dec "-" x) as [<-|_]; [discriminate|]. auto.
Qed.

Lemma includes_app (sub a b : string) :
  includes sub b = true -> includes sub (a ++ b) = true.
Proof.
  intros H. induction a as [|x a IH]; [exact H|].
  cbn [append includes]. rewrite IH. now destruct (String.prefix _ _).
Qed.

Lemma splitOn_none (s : string) :
  allChars timecodeChar s = true -> splitOnFrom " --> " 0 s = [s].
Proof.
  induction s as [|x s IH]; [reflexivity|].
  cbn [allChars]. intros H. apply andb_true_iff in H as [Hx Hs].
  cbn [splitOnFrom String.prefix].
  destruct (ascii_dec " " x) as [<-|_]; [discriminate|].
  now rewrite (IH Hs).
Qed.

Lemma splitOn_arrow (A B : string) :
  allChars timecodeChar A = true -> allChars timecodeChar B = true ->
  splitOn " --> " (A ++ " --> " ++ B) = [A; B].
Proof.
  intros HA HB. unfold splitOn.
  induction A as [|x A IH].
  - cbn [append splitOnFrom]. rewrite !prefix_cons, prefix_nil.
    cbn. now rewrite (splitOn_none B HB).
  - cbn [allChars] in HA. apply andb_true_iff in HA as [Hx HA].
    cbn [append splitOnFrom]. rewrite prefix_cons.
    destruct (Ascii.eqb_spec " " x) as [<-|_]; [discriminate|].
    cbn [andb append] in *. now rewrite (IH HA).
Qed.

Lemma not_header (x : ascii) (s : string) :
  timecodeChar x = true ->
  String.eqb (String x s) "WEBVTT" = false
  /\ String.prefix "WEBVTT" (String x s) = false.
Proof.
  intros Hx. split.
  - cbn [String.eqb]. destruct (Ascii.eqb_spec x "W") as [->|_];
      [discriminate | reflexivity].
  - cbn [String.prefix]. destruct (ascii_dec "W" x) as [<-|_];
      [discriminate | reflexivity].
Qed.

Lemma parseBlock_body (newId : string) (k : nat) (c : SubtitleCue) :
  exportable c ->
  parseBlock newId (blockBody k c) = Some (reimported newId c).
Proof.
  intros Hc.
  pose proof (blockBody_starts k c "") as Hstart.
  pose proof (blockBody_ends k c Hc) as Hend.
  rewrite append_nil_r in Hstart.
  destruct (index_chars k) as [Hi Hine].
  destruct (T1_chars c Hc) as [H1 H1ne].
  destruct (T2_chars c Hc) as [H2 H2ne].
  pose proof (timeLine_no_break c Hc) as Hline.
  destruct Hc as (_ & _ & Hs & He & Htag & _).
  unfold parseBlock. rewrite (trim_id _ Hstart Hend).
  assert (Hhead :
    (String.eqb (blockBody k c) "WEBVTT"
     || String.prefix "WEBVTT" (blockBody k c)) = false).
  { unfold blockBody.
    destruct (Str.toString (IInt (Z.of_nat k + 1))) as [|x r];
      [congruence|].
    cbn [allChars] in Hi. apply andb_true_iff in Hi as [Hx _].
    cbn [append]. destruct (not_header x (r ++ String LF (timeLine c ++ String LF (text c))) Hx)
      as [-> ->]. reflexivity. }
  rewrite Hhead. clear Hhead.
  assert (Hlines :
    Str.split LF (blockBody k c)
    = Str.toString (IInt (Z.of_nat k + 1)) :: timeLine c
        :: Str.split LF (text c)).
  { unfold blockBody. rewrite !split_app.
    rewrite (split_id LF (Str.toString _))
      by (apply (allChars_occurs timecodeChar); [reflexivity | exact Hi]).
    rewrite (split_id LF (timeLine c)) by exact Hline. reflexivity. }
  rewrite Hlines. cbn [List.length Nat.leb timeLineIndex].
  rewrite includes_no_dash
    by (apply (allChars_occurs timecodeChar); [reflexivity | exact Hi]).
  assert (Harrow : includes "-->" (timeLine c) = true).
  { unfold timeLine. apply includes_app.
    cbn [append includes]. now rewrite !prefix_cons, !prefix_nil. }
  rewrite Harrow. cbn [option_map nth Nat.add skipn].
  assert (Hparts :
    splitOn " --> " (timeLine c)
    = [formatSRTTime (startTime c); formatSRTTime (endTime c)])
    by (unfold timeLine; now apply splitOn_arrow).
  rewrite Hparts.
  cbn [nth_error].
  assert (Hn1 : nonEmpty (formatSRTTime (startTime c)) = true)
    by (destruct (formatSRTTime (startTime c)); [congruence | reflexivity]).
  assert (Hn2 : nonEmpty (formatSRTTime (endTime c)) = true)
    by (destruct (formatSRTTime (endTime c)); [congruence | reflexivity]).
  rewrite Hn1, Hn2. cbn [andb].
  destruct (timecode_nonWhite _ H1 H1ne) as [Hs1 He1].
  destruct (timecode_nonWhite _ H2 H2ne) as [Hs2 He2].
  rewrite (trim_id _ Hs1 He1), (trim_id _ Hs2 He2).
  rewrite (split_id SP (formatSRTTime (endTime c)))
    by (apply (allChars_occurs timecodeChar); [reflexivity | exact H2]).
  rewrite join_split, (trim_id _ Hs He), (TagFacts.stripTags_id _ Htag).
  reflexivity.
Qed.

Lemma parseBlocks_bodies
  (ids : nat -> string) (cues : list SubtitleCue) (k pushed : nat) :
  Forall exportable cues ->
  parseBlocks ids pushed (bodiesFrom k cues) = reimportedFrom ids pushed cues.
Proof.
  revert k pushed.
  induction cues as [|c rest IH]; intros k pushed Hall; [reflexivity|].
  cbn [bodiesFrom parseBlocks reimportedFrom].
  rewrite (parseBlock_body _ k c (Forall_inv Hall)).
  now rewrite (IH _ _ (Forall_inv_tail Hall)).
Qed.

(** *** The content [generateSRT] writes *)

Lemma cueBlock_body (k : nat) (c : SubtitleCue) :
  cueBlock k c = blockBody k c ++ String LF "".
Proof.
  unfold cueBlock, blockBody, timeLine.
  repeat (rewrite !append_assoc; cbn [append]). reflexivity.
Qed.

Lemma join_cueBlocks (cues : list SubtitleCue) (k : nat) :
  cues <> [] ->
  Array_join LF (cueBlocksFrom k cues) = joinedBodies k cues ++ String LF "".
Proof.
  revert k. induction cues as [|c rest IH]; intros k Hne; [contradiction|].
  destruct rest as [|c' rest'].
  - cbn [cueBlocksFrom Array_join joinedBodies]. apply cueBlock_body.
  - change (cueBlocksFrom k (c :: c' :: rest'))
      with (cueBlock k c :: cueBlocksFrom (S k) (c' :: rest')).
    rewrite join_cons by discriminate.
    rewrite IH by discriminate. rewrite cueBlock_body.
    cbn [joinedBodies].
    repeat (rewrite ?append_assoc; progress cbn [append]).
    rewrite ?append_assoc. reflexivity.
Qed.

Lemma joinedBodies_ends (cues : list SubtitleCue) (k : nat) :
  Forall exportable cues -> cues <> [] ->
  endsNonWhite (joinedBodies k cues) = true.
Proof.
  revert k. induction cues as [|c rest IH]; intros k Hall Hne;
    [contradiction|].
  cbn [joinedBodies]. destruct rest as [|c' rest'].
  - apply blockBody_ends, (Forall_inv Hall).
  - apply endsNonWhite_app.
    change (String LF (String LF (joinedBodies (S k) (c' :: rest'))))
      with (String LF (String LF "") ++ joinedBodies (S k) (c' :: rest')).
    apply endsNonWhite_app, IH; [apply (Forall_inv_tail Hall) | discriminate].
Qed.

Lemma trim_generateSRT (cues : list SubtitleCue) :
  Forall exportable cues -> cues <> [] ->
  trim (generateSRT cues) = joinedBodies 0 cues.
Proof.
  intros Hall Hne. unfold generateSRT, trim.
  rewrite (join_cueBlocks cues 0 Hne).
  rewrite skipWhite_starts
    by (apply startsNonWhite_app, joinedBodies_starts; assumption).
  apply trimEnd_app_white; [now apply joinedBodies_ends | reflexivity].
Qed.

End SrtFacts.

(** Importing the file that [generateSRT] writes gives the cues back, in
    order: each with a new id, the times its two timecodes read, and its own
    text, for cues whose times are finite, not negative and below 100 hours
    and whose text starts and ends with a character that is not white space
    and holds neither a complete tag nor a blank line. *)
Theorem export_import_roundtrip
  (ids : nat -> string) (cues : list SubtitleCue) :
  Forall exportable cues ->
  Srt.parseSRT ids (Srt.generateSRT cues) = reimportedFrom ids 0 cues.
Proof.
  intros Hall. destruct cues as [|c rest]; [reflexivity|].
  unfold Srt.parseSRT.
  rewrite SrtFacts.trim_generateSRT by (auto; discriminate).
  rewrite SrtFacts.splitBlocks_joined by (auto; discriminate).
  now apply SrtFacts.parseBlocks_bodies.
Qed.

Lemma export_import_roundtrip_witness :
  Srt.parseSRT (fun k => Str.toString (IInt (Z.of_nat k)))
    (Srt.generateSRT
       [{| id := "a"; startTime := Fin (3 # 2); endTime := Fin (3 # 1);
           text := "Hello" |};
        {| id := "b"; startTime := Fin (7 # 2); endTime := Fin (5 # 1);
           text := String "t" (String "w" (String "o" (String LF "lines"))) |}])
  = [{| id := "0"; startTime := Fin (3 # 2); endTime := Fin (3 # 1);
        text := "Hello" |};
     {| id := "1"; startTime := Fin (7 # 2); endTime := Fin (5 # 1);
        text := String "t" (String "w" (String "o" (String LF "lines"))) |}].
Proof.
  refine (eq_trans (export_import_roundtrip _ _ _) _).
  - repeat constructor;
      try (eexists; split; [reflexivity | split; unfold Qle; simpl; lia]).
  - reflexivity.
Defined.
